(** * clicker_scrape: the attendance-code extraction pipeline of [main.py]

    A shallow embedding of [extract_image_urls_from_html],
    [download_and_process_image], [extract_timestamps_from_thumbnails] and
    [extract_attendance_codes] together with the regular expressions they
    use, and the properties of the catalogue of the page, of the recognition
    and of the two-phase control flow proved about it.

    Modelling choices.
    - A Python [str] is a [list ascii]; the characters are the code points
      below 256, on which [str.lower], [str.strip] and the classes of [re]
      are written out.
    - The regular expressions of the source are terms of [regex]; the matcher
      [ends] lists the end positions of the matches starting at a position in
      the order in which the backtracking matcher of [re] tries them, so that
      the match [re] reports is the first one.
    - The browser, the network, the file system, PIL and tesseract enter as
      the fields of a [world]; every call that can raise returns in the error
      monad [res].
    - The set [found_codes] is a [gset]; the local variable itself is an
      [option], unbound until the assignment of line 205 has run.
    - The page is the tree BeautifulSoup returns, a [node] of tags and
      strings; the HTML parser is outside the model.
      [extract_image_urls_from_html] and [extract_timestamps_from_thumbnails]
      are embedded on that tree, with [int] on a label as [py_int]. *)

From Stdlib Require Import Ascii String ZArith List.
From stdpp Require Import base list gmap strings sorting.

Local Open Scope nat_scope.
Local Open Scope bool_scope.

(** ** Python strings *)

Abbreviation str := (list ascii).

(** A string literal of the source. *)
Definition py (s : string) : str := list_ascii_of_string s.

(** [ord(c)] *)
Definition ord (c : ascii) : nat := nat_of_ascii c.

Definition between (lo hi : nat) (c : ascii) : bool :=
  (lo <=? ord c) && (ord c <=? hi).

(** [[A-Z]], [[a-z]] and [[0-9]] of [re] (no flag: ASCII ranges). *)
Definition is_upper : ascii -> bool := between 65 90.
Definition is_lower : ascii -> bool := between 97 122.
Definition is_digit : ascii -> bool := between 48 57.

(** [str.isspace] on one character, which is also [\s] of a [str] pattern:
    tab to carriage return, the four separators 28..31, the space, and in the
    Latin-1 block NEL and the no-break space. *)
Definition is_space (c : ascii) : bool :=
  between 9 13 c || between 28 31 c || (ord c =? 32)
  || (ord c =? 133) || (ord c =? 160).

(** [str.lower] on one character: A-Z, and the Latin-1 capitals 192..222
    without the multiplication sign 215. *)
Definition lower_char (c : ascii) : ascii :=
  if is_upper c || (between 192 222 c && negb (ord c =? 215))
  then ascii_of_nat (ord c + 32) else c.

Definition lower (s : str) : str := map lower_char s.

Fixpoint lstrip (s : str) : str :=
  match s with
  | c :: s' => if is_space c then lstrip s' else s
  | [] => []
  end.

(** [s.strip()] *)
Definition strip (s : str) : str := rev (lstrip (rev (lstrip s))).

(** [s.replace(a, b)] for one-character [a] and [b]. *)
Definition replace (a b : ascii) (s : str) : str :=
  map (fun c => if Ascii.eqb c a then b else c) s.

Fixpoint startswith (p s : str) : bool :=
  match p, s with
  | [], _ => true
  | a :: p', b :: s' => Ascii.eqb a b && startswith p' s'
  | _ :: _, [] => false
  end.

(** [sub in s] *)
Fixpoint str_in (sub s : str) : bool :=
  startswith sub s ||
  match s with
  | [] => false
  | _ :: s' => str_in sub s'
  end.

(** [s.split(sep)] for a non-empty [sep]: the occurrences of [sep] are found
    from the left and do not overlap. [cur] holds the current piece in
    reverse; after an occurrence the remaining [length sep - 1] characters of
    it are skipped. *)
Fixpoint split_aux (sep cur : str) (skip : nat) (s : str) : list str :=
  match s with
  | [] => [rev cur]
  | c :: s' =>
      match skip with
      | S k => split_aux sep cur k s'
      | 0 =>
          if startswith sep s
          then rev cur :: split_aux sep [] (length sep - 1) s'
          else split_aux sep (c :: cur) 0 s'
      end
  end.

Definition split (sep s : str) : list str := split_aux sep [] 0 s.

(** [s[i:j]] *)
Definition slice (s : str) (i j : nat) : str := take (j - i) (drop i s).

(** ** Regular expressions of [re] *)

Inductive regex : Type :=
| Eps
| Chr (p : ascii -> bool)            (* a literal or a class [[...]] *)
| Seq (r1 r2 : regex)
| Alt (r1 r2 : regex)                (* r1|r2 *)
| Rep (r : regex) (lo : nat)         (* greedy r{lo,}: r* is lo = 0, r+ is lo = 1 *)
| NotBehind (p : ascii -> bool)      (* (?<![...]) *)
| NotAhead (p : ascii -> bool)       (* (?![...]) *)
| Bos                                (* ^ without MULTILINE *)
| Eos.                               (* $ without MULTILINE *)

(** The greedy loop: one more iteration of the body is tried before the loop
    is left, and an iteration that consumed nothing ends the loop, as in
    [re]. [fuel] bounds the iterations; each consumes a character, so one
    more than the length of the text left is enough (see [ends] and
    [rep_ends_fuel]). *)
Fixpoint rep_ends (body : nat -> list nat) (lo fuel cnt i : nat) : list nat :=
  match fuel with
  | 0 => []
  | S fuel' =>
      flat_map (fun j => if i <? j then rep_ends body lo fuel' (S cnt) j else [])
               (body i)
  end ++ (if lo <=? cnt then [i] else []).

(** [ends r text i]: the positions at which a match of [r] that starts at [i]
    can end, in the order of preference of the backtracking matcher. *)
Fixpoint ends (r : regex) (text : str) (i : nat) : list nat :=
  match r with
  | Eps => [i]
  | Chr p =>
      match text !! i with
      | Some c => if p c then [S i] else []
      | None => []
      end
  | Seq r1 r2 => flat_map (ends r2 text) (ends r1 text i)
  | Alt r1 r2 => ends r1 text i ++ ends r2 text i
  | Rep r lo => rep_ends (ends r text) lo (S (length text) - i) 0 i
  | NotBehind p =>
      match i with
      | 0 => [i]
      | S k => match text !! k with
               | Some c => if p c then [] else [i]
               | None => [i]
               end
      end
  | NotAhead p =>
      match text !! i with
      | Some c => if p c then [] else [i]
      | None => [i]
      end
  | Bos => if i =? 0 then [i] else []
  | Eos =>
      if (i =? length text)
         || ((S i =? length text) && bool_decide (text !! i = Some "010"%char))
      then [i] else []
  end.

(** The match found at position [i], if any: its end. *)
Definition match_at (r : regex) (text : str) (i : nat) : option nat :=
  head (ends r text i).

(** [re.match(r, text)] as a truth value. *)
Definition re_match (r : regex) (text : str) : bool :=
  bool_decide (is_Some (match_at r text 0)).

(** The scan of [re.search], [re.finditer] and [re.findall]: the spans
    [(start, end)] of the successive matches from [pos] on. After a match the
    scan resumes at its end. (No pattern of the source matches the empty
    string; after such a match the scan would move one character on.) Every
    step moves [pos] forward, so [S (length text)] steps reach the end; see
    [scan_fuel]. *)
Fixpoint scan (r : regex) (text : str) (fuel pos : nat) : list (nat * nat) :=
  match fuel with
  | 0 => []
  | S fuel' =>
      if length text <? pos then []
      else match match_at r text pos with
           | Some e => (pos, e) :: scan r text fuel' (if e =? pos then S pos else e)
           | None => scan r text fuel' (S pos)
           end
  end.

Definition re_finditer (r : regex) (text : str) : list (nat * nat) :=
  scan r text (S (length text)) 0.

(** [re.findall(r, text)] for a pattern without groups. *)
Definition re_findall (r : regex) (text : str) : list str :=
  map (fun se => slice text se.1 se.2) (re_finditer r text).

(** [re.search(r, text)] as a truth value. *)
Definition re_search (r : regex) (text : str) : bool :=
  bool_decide (re_finditer r text <> []).

(** A literal string as a pattern. *)
Definition lit (s : str) : regex :=
  foldr (fun c r => Seq (Chr (Ascii.eqb c)) r) Eps s.

(** [r'attendance code|clicker question'] (lines 67 and 266) *)
Definition indicator_pattern : regex :=
  Alt (lit (py "attendance code")) (lit (py "clicker question")).

(** [[a-zA-Z0-9:/.]] *)
Definition boundary (c : ascii) : bool :=
  is_lower c || is_upper c || is_digit c
  || Ascii.eqb c ":" || Ascii.eqb c "/" || Ascii.eqb c ".".

(** [r'(?<![a-zA-Z0-9:/.])[A-Z]{2,}(?: [A-Z]{2,})X(?![a-zA-Z0-9:/.])'] where
    the quantifier X of the group is [*] for [lo = 0] and [+] for [lo = 1]. *)
Definition code_pattern (lo : nat) : regex :=
  Seq (NotBehind boundary)
      (Seq (Rep (Chr is_upper) 2)
           (Seq (Rep (Seq (Chr (Ascii.eqb " ")) (Rep (Chr is_upper) 2)) lo)
                (NotAhead boundary))).

(** The pattern of line 70 (thumbnails) and the pattern of line 267 (video). *)
Definition thumbnail_code_pattern : regex := code_pattern 0.
Definition video_code_pattern : regex := code_pattern 1.

(** [r'^[A-Z\s]+$'] (line 94) *)
Definition line_pattern : regex :=
  Seq Bos (Seq (Rep (Chr (fun c => is_upper c || is_space c)) 1) Eos).

(** ** Exceptions *)

(** The exceptions the modelled calls raise; all of them derive from
    [Exception], so that [except Exception] and a bare [except] catch each. *)
Inductive exn : Type :=
| RequestException      (* requests.get *)
| OSError               (* os.makedirs, open, write, Image.save *)
| UnidentifiedImageError (* Image.open *)
| TesseractError        (* pytesseract.image_to_string *)
| IndexError            (* l[i] out of range *)
| WebDriverException    (* selenium *)
| UnboundLocalError.    (* a local variable read before its assignment *)

(** A computation that returns ([inr]) or raises ([inl]). *)
Definition res (A : Type) : Type := exn + A.

Definition raise {A} (e : exn) : res A := inl e.

#[global] Instance res_ret : MRet res := fun A a => inr a.
#[global] Instance res_bind : MBind res := fun A B f m =>
  match m with
  | inl e => inl e
  | inr a => f a
  end.

(** [try: body except Exception: handler] *)
Definition try_except {A} (body : res A) (handler : exn -> res A) : res A :=
  match body with
  | inl e => handler e
  | inr a => inr a
  end.

(** [l[i]] *)
Definition index {A} (l : list A) (i : nat) : res A :=
  match l !! i with
  | Some a => mret a
  | None => raise IndexError
  end.

(** [for x in l: f(x)] *)
Fixpoint for_each {A} (f : A -> res unit) (l : list A) : res unit :=
  match l with
  | [] => mret tt
  | x :: l' => _ ← f x; for_each f l'
  end.

(** ** The world outside the core *)

Abbreviation bytes := (list ascii).

(** A decoded [PIL.Image]. *)
Inductive image : Type := Image (data : bytes).

(** What one processed frame reports: [(timestamp, codes, file)]. *)
Definition outcome : Type := str * list str * str.

Record world : Type := World {
  (** [extract_image_urls_from_html(html_content)]: [(url, timestamp)] *)
  image_urls : list (str * str);
  (** [extract_timestamps_from_thumbnails(html_content)]: [(seconds, label)] *)
  timestamps : list (Z * str);
  (** [requests.get(url)]: [(status_code, content)] *)
  requests_get : str -> res (Z * bytes);
  (** [os.makedirs(path, exist_ok=True)] *)
  makedirs : str -> res unit;
  (** [with open(path, 'wb') as f: f.write(data)] *)
  write_file : str -> bytes -> res unit;
  (** [Image.open(io.BytesIO(data))] *)
  Image_open : bytes -> res image;
  (** [pytesseract.image_to_string(image)] *)
  image_to_string : image -> res str;
  (** [image.save(path)] *)
  image_save : image -> str -> res unit;
  (** the order in which [concurrent.futures.as_completed] yields the
      futures of the submitted descriptors *)
  as_completed : list (str * str) -> list (str * str);
  (** whether [.panopto-player] shows up within the 20 seconds waited *)
  panopto_player : bool;
  (** whether [driver.find_element(By.TAG_NAME, "video")] finds an element *)
  video_element : bool;
  (** [driver.execute_script("document.querySelector('video').currentTime = ...")] *)
  execute_script : Z -> res unit;
  (** [driver.find_element(By.TAG_NAME, "video").screenshot_as_png] when the
      player stands at the given time *)
  screenshot_as_png : Z -> res bytes
}.

(** ** Recognition of the codes in the text of a frame *)

Definition url_terms : list str := [py "http"; py "www"; py "join"; py "com"].

(** [not any(url_term in match.lower() for url_term in [...])] *)
Definition not_url (m : str) : bool :=
  negb (existsb (fun url_term => str_in url_term (lower m)) url_terms).

(** The list comprehension of lines 74-77 and 270-273. *)
Definition filter_matches (matches : list str) : list str :=
  List.filter not_url matches.

Definition prompt : str := py "Insert the following attendance code".

(** ['\n'] *)
Definition newline : str := ["010"%char].

(** The test of line 94 on one line after the prompt. *)
Definition code_line (line : str) : bool :=
  re_match line_pattern (strip line) && (3 <? length (strip line)).

(** What lines 67-102 find in the text of a thumbnail. *)
Inductive recognition : Type :=
| Matches (filtered_matches : list str)   (* line 86 *)
| FallbackCode (code : str)               (* line 100 *)
| NoCode.                                 (* line 102 *)

(** The loop of line 93: the first line that passes, stripped. *)
Fixpoint first_code_line (lines : list str) : recognition :=
  match lines with
  | [] => NoCode
  | line :: lines' =>
      if code_line line then FallbackCode (strip line)
      else first_code_line lines'
  end.

(** Lines 67-102 of [download_and_process_image] without the archival of the
    image, which [download_and_process_image] below adds back. *)
Definition recognize_thumbnail (text : str) : res recognition :=
  if re_search indicator_pattern (lower text) then
    let matches := re_findall thumbnail_code_pattern text in
    let filtered_matches := filter_matches matches in
    if bool_decide (filtered_matches <> []) then mret (Matches filtered_matches)
    else if str_in prompt text then
      after_prompt ← index (split prompt text) 1;
      let lines := split newline after_prompt in
      mret (first_code_line (take 5 lines))
    else mret NoCode
  else mret NoCode.

(** The codes of a recognition, as the second component of the tuple
    returned on lines 86 and 100. *)
Definition codes_of (r : recognition) : list str :=
  match r with
  | Matches filtered_matches => filtered_matches
  | FallbackCode c => [c]
  | NoCode => []
  end.

(** Lines 266-273 of [extract_attendance_codes]: [filtered_matches] of a
    video frame, empty when the [if] of line 266 is not entered. *)
Definition recognize_video (text : str) : list str :=
  if re_search indicator_pattern (lower text) then
    filter_matches (re_findall video_code_pattern text)
  else [].

(** ** [download_and_process_image] *)

Definition underscored (a : ascii) (s : str) : str := replace a "_" s.

(** Lines 79-100: archive the image under each code and return the tuple. *)
Definition archive_thumbnail (w : world) (timestamp filename : str) (img : image)
    (r : recognition) : res (option outcome) :=
  match r with
  | Matches filtered_matches =>
      _ ← makedirs w (py "attendance_codes");
      _ ← for_each (fun m =>
             image_save w img
               (py "attendance_codes/code_" ++ underscored " " m ++ py "_"
                ++ underscored ":" timestamp ++ py ".jpg"))
           filtered_matches;
      mret (Some (timestamp, filtered_matches, filename))
  | FallbackCode c =>
      _ ← makedirs w (py "attendance_codes");
      _ ← image_save w img
             (py "attendance_codes/code_fallback_" ++ underscored " " c ++ py "_"
              ++ underscored ":" timestamp ++ py ".jpg");
      mret (Some (timestamp, [c], filename))
  | NoCode => mret None
  end.

(** The body of the [try] (lines 46-102). *)
Definition download_and_process_image_body (w : world) (url timestamp : str)
    : res (option outcome) :=
  response ← requests_get w url;
  let '(status_code, content) := response in
  if negb (status_code =? 200)%Z then mret None
  else
    _ ← makedirs w (py "thumbnails");
    let filename := py "thumbnails/thumbnail_" ++ underscored ":" timestamp ++ py ".jpg" in
    _ ← write_file w filename content;
    img ← Image_open w content;
    text ← image_to_string w img;
    r ← recognize_thumbnail text;
    archive_thumbnail w timestamp filename img r.

Definition download_and_process_image (w : world) (url_timestamp : str * str)
    : res (option outcome) :=
  let '(url, timestamp) := url_timestamp in
  try_except (download_and_process_image_body w url timestamp)
             (fun e => mret None).

(** ** The browser driven by [extract_attendance_codes] *)

(** What the driver is asked to do from line 217 on, and its [quit]. *)
Inductive event : Type :=
| WaitPlayer                 (* line 222 *)
| FindVideo                  (* line 232 *)
| Seek (seconds : Z)         (* line 249 *)
| Screenshot (seconds : Z)   (* line 253 *)
| VideoOcr                   (* line 263 *)
| Quit.                      (* line 294 *)

Record browser : Type := Browser {
  currentTime : Z;           (* the position of the video player *)
  events : list event        (* what the driver was asked, oldest first *)
}.

(** A computation on the browser that returns or raises. *)
Definition M (A : Type) : Type := browser -> res A * browser.

#[global] Instance M_ret : MRet M := fun A a b => (inr a, b).
#[global] Instance M_bind : MBind M := fun A B f m b =>
  match m b with
  | (inl e, b') => (inl e, b')
  | (inr a, b') => f a b'
  end.

Definition lift {A} (r : res A) : M A := fun b => (r, b).

Definition log (e : event) : M unit :=
  fun b => (inr tt, Browser (currentTime b) (events b ++ [e])).

(** [try: body finally: final] *)
Definition try_finally {A} (body : M A) (final : M unit) : M A :=
  fun b =>
    let '(r, b') := body b in
    match final b' with
    | (inl e, b'') => (inl e, b'')
    | (inr _, b'') => (r, b'')
    end.

(** ** [extract_attendance_codes] *)

(** Lines 195-202: the results of the futures in the order of completion;
    a future that raised is reported and skipped, one that returned [None] is
    skipped. *)
Fixpoint gather (future_result : str * str -> res (option outcome))
    (completed : list (str * str)) (results : list outcome) : list outcome :=
  match completed with
  | [] => results
  | url_timestamp :: completed' =>
      match future_result url_timestamp with
      | inr (Some result) => gather future_result completed' (results ++ [result])
      | inr None => gather future_result completed' results
      | inl e => gather future_result completed' results
      end
  end.

(** [for code in codes: found_codes.add(code)] *)
Definition add_codes (found_codes : gset str) (codes : list str) : gset str :=
  foldl (fun s c => {[c]} ∪ s) found_codes codes.

(** Lines 205-208. *)
Definition collect_codes (results : list outcome) : gset str :=
  foldl (fun s (result : outcome) => add_codes s result.1.2) ∅ results.

(** Lines 186-208: the local variable [found_codes] after the thumbnails,
    which is bound only when the [if image_urls:] of line 186 is entered. *)
Definition thumbnail_found_codes (w : world) : option (gset str) :=
  if bool_decide (image_urls w <> []) then
    Some (collect_codes
            (gather (download_and_process_image w) (as_completed w (image_urls w)) []))
  else None.

(** Reading the local variable [found_codes]. *)
Definition read_found_codes (found_codes : option (gset str)) : res (gset str) :=
  match found_codes with
  | Some s => mret s
  | None => raise UnboundLocalError
  end.

(** Lines 221-236: [true] when a player or a video element is there. *)
Definition find_video_player (w : world) : M bool :=
  _ ← log WaitPlayer;
  if panopto_player w then mret true
  else _ ← log FindVideo; mret (video_element w).

(** Lines 266-281 on the text of one captured frame. *)
Definition video_frame_codes (w : world) (time_str screenshot_file : str)
    (img : image) (text : str) (video_scan_results : list outcome)
    : res (list outcome) :=
  let filtered_matches := recognize_video text in
  if bool_decide (filtered_matches <> []) then
    _ ← makedirs w (py "attendance_codes");
    _ ← for_each (fun m =>
           image_save w img
             (py "attendance_codes/video_code_" ++ underscored " " m ++ py "_"
              ++ underscored ":" time_str ++ py ".png"))
         filtered_matches;
    mret (video_scan_results ++ [(time_str, filtered_matches, screenshot_file)])
  else mret video_scan_results.

(** Lines 246-281: one turn of the loop over the timestamps. *)
Definition video_frame (w : world) (seconds : Z) (time_str : str)
    (video_scan_results : list outcome) : M (list outcome) :=
  _ ← log (Seek seconds);
  _ ← lift (execute_script w seconds);
  _ ← (fun b => (inr tt, Browser seconds (events b)));
  (* time.sleep(1.5) *)
  now ← (fun b => (inr (currentTime b), b));
  _ ← log (Screenshot now);
  screenshot ← lift (screenshot_as_png w now);
  let screenshot_file := py "video_frames/frame_" ++ underscored ":" time_str ++ py ".png" in
  _ ← lift (makedirs w (py "video_frames"));
  _ ← lift (write_file w screenshot_file screenshot);
  img ← lift (Image_open w screenshot);
  _ ← log VideoOcr;
  text ← lift (image_to_string w img);
  lift (video_frame_codes w time_str screenshot_file img text video_scan_results).

(** Lines 243-281. *)
Fixpoint video_scan (w : world) (stamps : list (Z * str))
    (video_scan_results : list outcome) : M (list outcome) :=
  match stamps with
  | [] => mret video_scan_results
  | (seconds, time_str) :: stamps' =>
      video_scan_results' ← video_frame w seconds time_str video_scan_results;
      video_scan w stamps' video_scan_results'
  end.

(** Lines 285-288: [if code not in found_codes: found_codes.add(code)]. *)
Fixpoint add_video_codes (found_codes : option (gset str)) (codes : list str)
    : res (option (gset str)) :=
  match codes with
  | [] => mret found_codes
  | c :: codes' =>
      s ← read_found_codes found_codes;
      add_video_codes (Some (if bool_decide (c ∈ s) then s else {[c]} ∪ s)) codes'
  end.

(** Lines 284-288. *)
Fixpoint merge_video_results (found_codes : option (gset str))
    (video_scan_results : list outcome) : res (option (gset str)) :=
  match video_scan_results with
  | [] => mret found_codes
  | result :: rest =>
      found_codes' ← add_video_codes found_codes result.1.2;
      merge_video_results found_codes' rest
  end.

(** Lines 217-290, entered with the local [found_codes] as the thumbnails
    left it. *)
Definition video_phase (w : world) (found_codes : option (gset str)) : M (list str) :=
  found ← find_video_player w;
  if negb found then mret []
  else
    video_scan_results ← video_scan w (timestamps w) [];
    found_codes' ← lift (merge_video_results found_codes video_scan_results);
    s ← lift (read_found_codes found_codes');
    mret (elements s).

(** Lines 180-294. The set-up of the driver and the loading of the page
    (lines 138-178) are not modelled: their outcome is the page whose
    thumbnails and timestamps the world lists. [list(found_codes)] is
    [elements]: some enumeration of the set without repetition. *)
Definition extract_attendance_codes (w : world) : M (list str) :=
  try_finally
    (let found_codes := thumbnail_found_codes w in
     match found_codes with
     | Some s =>
         if bool_decide (s <> ∅) then mret (elements s)
         else video_phase w found_codes
     | None => video_phase w found_codes
     end)
    (log Quit).

(** The browser as the page has just been loaded. *)
Definition fresh : browser := Browser 0 [].

(** ** Worlds to run the pipeline in *)

(** A world in which a frame is the text it shows: a thumbnail is listed
    with its URL, its timestamp and what [requests.get] does for it, and OCR
    reads the bytes back. [video] lists the navigation points with the text
    on screen at each, or is [None] when the page has no player and no video
    element. Nothing else fails. *)
Definition stage (thumbnails : list (str * str * res (Z * bytes)))
    (video : option (list (Z * str * str))) : world :=
  {| image_urls := map fst thumbnails;
     timestamps := map fst (default [] video);
     requests_get := fun url =>
       match List.find (fun t => bool_decide (t.1.1 = url)) thumbnails with
       | Some t => t.2
       | None => raise RequestException
       end;
     makedirs := fun _ => mret tt;
     write_file := fun _ _ => mret tt;
     Image_open := fun data => mret (Image data);
     image_to_string := fun img => let 'Image data := img in mret data;
     image_save := fun _ _ => mret tt;
     as_completed := fun submitted => submitted;
     panopto_player := false;
     video_element := bool_decide (is_Some video);
     execute_script := fun _ =>
       if bool_decide (is_Some video) then mret tt else raise WebDriverException;
     screenshot_as_png := fun seconds =>
       match List.find (fun t => bool_decide (t.1.1 = seconds)) (default [] video) with
       | Some t => mret t.2
       | None => raise WebDriverException
       end |}.

(** No thumbnail; two navigation points, the first showing noise and the
    second a clicker question with the code QRST UVWX. *)
Definition video_only_world : world :=
  stage []
    (Some [(0%Z, py "0:00", py "~~ l0rem 1psum ~~");
           (90%Z, py "1:30", py "clicker question ... QRST UVWX")]).

(** The same frames behind one thumbnail without any code. *)
Definition blank_thumbnail_world : world :=
  stage [(py "https://host/t0.jpg", py "0:00", inr (200%Z, py "Welcome to CPSC"))]
    (Some [(0%Z, py "0:00", py "~~ l0rem 1psum ~~");
           (90%Z, py "1:30", py "clicker question ... QRST UVWX");
           (120%Z, py "2:00", py "Clicker Question: QRST UVWX or QRST UVWX")]).

(** Three thumbnails, two of them with codes, and no video element. *)
Definition thumbnail_world : world :=
  stage [(py "https://host/t0.jpg", py "0:00", inr (200%Z, py "attendance code ABCD EFGH"));
         (py "https://host/t1.jpg", py "0:30", inr (200%Z, py "Today: sorting"));
         (py "https://host/t2.jpg", py "1:00", inr (200%Z, py "Attendance Code WXYZ"))]
    None.

(** ** Notions the statements use *)

(** [sub] occurs in [s]. *)
Definition occurs_in (sub s : str) : Prop := exists a b, s = a ++ sub ++ b.

(** The number of leading characters of [s] in the class [p]. *)
Fixpoint span_len (p : ascii -> bool) (s : str) : nat :=
  match s with
  | c :: s' => if p c then S (span_len p s') else 0
  | [] => 0
  end.

(** [hi, hi - 1, ..., lo], empty when [hi < lo]. *)
Fixpoint downto (hi lo : nat) : list nat :=
  if hi <? lo then []
  else hi :: match hi with
             | 0 => []
             | S h => downto h lo
             end.

(** An uppercase alphabetic token of length at least 2. *)
Definition token (t : str) : Prop := 2 <= length t /\ forallb is_upper t = true.

(** The tokens [t :: ts] separated by single spaces. *)
Definition spaced (t : str) (ts : list str) : str :=
  t ++ flat_map (fun t' => " "%char :: t') ts.

(** A character just before position [i], if there is one, is not of the
    class [[a-zA-Z0-9:/.]]. *)
Definition clear_before (text : str) (i : nat) : Prop :=
  forall k c, i = S k -> text !! k = Some c -> boundary c = false.

(** A character at position [e], if there is one, is not of that class. *)
Definition clear_after (text : str) (e : nat) : Prop :=
  forall c, text !! e = Some c -> boundary c = false.

(** [text[i:e]] is [s]. *)
Definition reads (text : str) (i e : nat) (s : str) : Prop :=
  e = i + length s /\ take (length s) (drop i text) = s.

(** The group [(?: [A-Z]{2,})] of the code patterns. *)
Definition group : regex := Seq (Chr (Ascii.eqb " ")) (Rep (Chr is_upper) 2).


(** The test of line 94, said without a pattern: at least one character,
    each a capital or white space. *)
Definition letters_and_spaces (s : str) : bool :=
  negb (bool_decide (s = [])) && forallb (fun c => is_upper c || is_space c) s.

(** [sep] does not occur in [s] at a position before [n]. *)
Definition absent_before (sep s : str) (n : nat) : Prop :=
  forall k, k < n -> startswith sep (drop k s) = false.

(** ['\n'.join(lines)] *)
Definition join_lines (lines : list str) : str :=
  match lines with
  | [] => []
  | line :: lines' => line ++ flat_map (fun l => "010"%char :: l) lines'
  end.

(** What a future hands to line 199: the tuple, or nothing when the task
    returned [None] or raised. *)
Definition returned (r : res (option outcome)) : option outcome :=
  match r with
  | inr o => o
  | inl _ => None
  end.

(** What follows the first occurrence of [sep] in [s], up to the end. *)
Fixpoint after_first (sep s : str) : option str :=
  if startswith sep s then Some (drop (length sep) s)
  else match s with
       | [] => None
       | _ :: s' => after_first sep s'
       end.

(** The fallback in the words of the specification, to compare with
    [recognize_thumbnail]: of the next five lines after the prompt, the first
    that is letters and spaces only and longer than 3 once trimmed. *)
Definition spec_fallback (text : str) : recognition :=
  match after_first prompt text with
  | Some rest =>
      match List.find
              (fun line => letters_and_spaces (strip line) && (3 <? length (strip line)))
              (take 5 (split newline rest)) with
      | Some line => FallbackCode (strip line)
      | None => NoCode
      end
  | None => NoCode
  end.

(** ** Texts to run the recognition on *)

(** A slide that shows the same code twice. *)
Definition repeated_code_text : str := py "attendance code ABCD and ABCD".

(** A slide with two codes and the address of the course site. *)
Definition two_codes_text : str :=
  py "Attendance Code: enter ABCD EFGH or WXYZ, see WWW for more".

(** A prompt whose code line the primary pattern finds and the filter
    drops (it contains "com"), so that the fallback takes it. *)
Definition fallback_text : str :=
  prompt ++ newline ++ py "WELCOME HOME" ++ newline.

(** The prompt shown twice, the code below the second. *)
Definition repeated_prompt_text : str :=
  prompt ++ newline ++ prompt ++ newline ++ py "A B C D".

(** Four thumbnails; the download of the third one fails. *)
Definition failing_fetch_world : world :=
  stage [(py "https://host/t0.jpg", py "0:00", inr (200%Z, py "attendance code ABCD EFGH"));
         (py "https://host/t1.jpg", py "0:30", inr (200%Z, py "Today: sorting"));
         (py "https://host/t2.jpg", py "1:00", inl RequestException);
         (py "https://host/t3.jpg", py "1:30", inr (200%Z, py "Attendance Code WXYZ"))]
    None.

(** ** The page as BeautifulSoup hands it over *)

(** An element of the parsed page: a string that [get_text] returns, or a
    tag with its name, the list of its classes (the [class] attribute cut at
    white space), its other attributes and its children. The parser itself,
    [BeautifulSoup(html_content, 'html.parser')], is outside the model; the
    page is the tag [[document]] it returns. *)
#[local] Unset Elimination Schemes.
Inductive node : Type :=
| NavigableString (s : str)
| Tag (name : str) (classes : list str) (attrs : list (str * str))
      (contents : list node).
#[local] Set Elimination Schemes.

(** The pairs [(element.parent, element)] for the elements below [parent],
    in document order. *)
Fixpoint family (parent : node) : list (node * node) :=
  match parent with
  | NavigableString _ => []
  | Tag _ _ _ contents =>
      flat_map (fun child => (parent, child) :: family child) contents
  end.

(** [tag.descendants] *)
Definition descendants (n : node) : list node := map snd (family n).

(** [tag.text] *)
Fixpoint get_text (n : node) : str :=
  match n with
  | NavigableString s => s
  | Tag _ _ _ contents => flat_map get_text contents
  end.

(** [tag.name == name], false on a string. *)
Definition has_name (name : str) (n : node) : bool :=
  match n with
  | Tag nm _ _ _ => bool_decide (nm = name)
  | NavigableString _ => false
  end.

(** The filter [class_=c] for a [c] without white space: [c] is one of the
    classes of the tag. *)
Definition has_class (c : str) (n : node) : bool :=
  match n with
  | Tag _ classes _ _ => bool_decide (c ∈ classes)
  | NavigableString _ => false
  end.

(** [tag.get(key)] *)
Definition get_attr (key : str) (n : node) : option str :=
  match n with
  | Tag _ _ attrs _ => snd <$> List.find (fun kv => bool_decide (kv.1 = key)) attrs
  | NavigableString _ => None
  end.

(** [tag.find('div', class_='thumbnail-timestamp')]: the first such element
    below [n]. *)
Definition find_timestamp_div (n : node) : option node :=
  head (List.filter
          (fun d => has_name (py "div") d && has_class (py "thumbnail-timestamp") d)
          (descendants n)).

(** Lines 31-35: the timestamp of an image, read in its parent. *)
Definition image_timestamp (parent : node) : str :=
  if has_name (py "li") parent then
    match find_timestamp_div parent with
    | Some timestamp_div => strip (get_text timestamp_div)
    | None => py "unknown"
    end
  else py "unknown".

(** [extract_image_urls_from_html], on the parsed page. *)
Definition extract_image_urls_from_html (soup : node) : list (str * str) :=
  let img_tags :=
    List.filter (fun pn => has_name (py "img") pn.2
                           && bool_decide (is_Some (get_attr (py "data-src") pn.2)))
                (family soup) in
  map (fun pn => (default [] (get_attr (py "data-src") pn.2), image_timestamp pn.1))
      img_tags.

(** The digits of [int(s)], after the sign: decimal digits, with single
    underscores between digits. *)
Fixpoint int_digits (acc : Z) (after_digit : bool) (s : str) : option Z :=
  match s with
  | [] => if after_digit then Some acc else None
  | c :: s' =>
      if is_digit c then int_digits (10 * acc + Z.of_nat (ord c - 48)) true s'
      else if Ascii.eqb c "_" && after_digit then int_digits acc false s'
      else None
  end.

(** The white space [int] skips around the number: as [str.isspace] but
    for the separators 28..31. *)
Definition is_int_space (c : ascii) : bool :=
  between 9 13 c || (ord c =? 32) || (ord c =? 133) || (ord c =? 160).

Fixpoint drop_while (p : ascii -> bool) (s : str) : str :=
  match s with
  | c :: s' => if p c then drop_while p s' else s
  | [] => []
  end.

(** The limit of [int] on the length of a decimal numeral: with more digits
    than [sys.get_int_max_str_digits()], 4300 unless it was changed, [int]
    raises [ValueError]. *)
Definition int_max_str_digits : Z := 4300.

(** [int(s)], [None] for [ValueError]: white space around, a sign, digits. *)
Definition py_int (s : str) : option Z :=
  let numeral := rev (drop_while is_int_space (rev (drop_while is_int_space s))) in
  if (int_max_str_digits <? Z.of_nat (length (List.filter is_digit numeral)))%Z then None
  else
    match numeral with
    | "-"%char :: digits => Z.opp <$> int_digits 0 false digits
    | "+"%char :: digits => int_digits 0 false digits
    | digits => int_digits 0 false digits
    end.

(** Lines 125-130: [minutes, seconds = map(int, timestamp_text.split(':'))]
    and the entry appended; [None] when anything raises (not two parts, or a
    part that is no integer) and the bare [except] goes on. *)
Definition timestamp_entry (timestamp_text : str) : option (Z * str) :=
  match split [":"%char] timestamp_text with
  | [a; b] =>
      minutes ← py_int a;
      seconds ← py_int b;
      Some (minutes * 60 + seconds, timestamp_text)%Z
  | _ => None
  end.

(** Lines 116-130 for one thumbnail. *)
Definition thumbnail_entry (thumbnail : node) : option (Z * str) :=
  match find_timestamp_div thumbnail with
  | None => None
  | Some timestamp_div => timestamp_entry (strip (get_text timestamp_div))
  end.

(** The order of [sorted(..., key=lambda x: x[0])]. *)
Definition by_seconds (x y : Z * str) : Prop := (x.1 <= y.1)%Z.

#[global] Instance by_seconds_dec x y : Decision (by_seconds x y) :=
  Z_le_dec x.1 y.1.

(** [extract_timestamps_from_thumbnails], on the parsed page.
    [list(set(timestamps))] is [elements]: an enumeration of the distinct
    entries in some order, which [sorted] then orders by the seconds. *)
Definition extract_timestamps_from_thumbnails (soup : node) : list (Z * str) :=
  let thumbnails :=
    List.filter (fun n => has_name (py "li") n && has_class (py "thumbnail") n)
                (descendants soup) in
  let timestamps := omap thumbnail_entry thumbnails in
  merge_sort by_seconds (elements (list_to_set timestamps : gset (Z * str))).

(** ** The page behind a run *)

(** Lines 182 and 239: both extractions read the same [html_content], the
    page as the driver has loaded it. *)
Definition open_page (soup : node) (w : world) : world :=
  {| image_urls := extract_image_urls_from_html soup;
     timestamps := extract_timestamps_from_thumbnails soup;
     requests_get := requests_get w;
     makedirs := makedirs w;
     write_file := write_file w;
     Image_open := Image_open w;
     image_to_string := image_to_string w;
     image_save := image_save w;
     as_completed := as_completed w;
     panopto_player := panopto_player w;
     video_element := video_element w;
     execute_script := execute_script w;
     screenshot_as_png := screenshot_as_png w |}.


(** What the driver is asked at the navigation points [stamps] when every
    frame is read: to seek, to capture, and the frame goes to OCR. *)
Definition visits (stamps : list (Z * str)) : list event :=
  flat_map (fun stamp => [Seek stamp.1; Screenshot stamp.1; VideoOcr]) stamps.

(** What the driver is asked on lines 221-236. *)
Definition player_search (w : world) : list event :=
  if panopto_player w then [WaitPlayer] else [WaitPlayer; FindVideo].

(** The positions sought, oldest first. *)
Definition seeks (evs : list event) : list Z :=
  omap (fun e => match e with Seek seconds => Some seconds | _ => None end) evs.

(** A code as the patterns of lines 70, 94 and 267 let it through: capitals
    and white space only, a capital first and last. *)
Definition code_shaped (c : str) : Prop :=
  2 <= length c /\
  Forall (fun ch => is_upper ch = true \/ is_space ch = true) c /\
  (exists first, head c = Some first /\ is_upper first = true) /\
  (exists final, last c = Some final /\ is_upper final = true).

(** The code [c] was recognized in the text of a thumbnail that was fetched
    with status 200. *)
Definition thumbnail_source (w : world) (c : str) : Prop :=
  exists url timestamp content img text r,
    (url, timestamp) ∈ as_completed w (image_urls w) /\
    requests_get w url = inr (200%Z, content) /\
    Image_open w content = inr img /\
    image_to_string w img = inr text /\
    recognize_thumbnail text = inr r /\
    c ∈ codes_of r.

(** The code [c] was recognized in the text of a capture of the video at a
    navigation point. *)
Definition video_source (w : world) (c : str) : Prop :=
  exists seconds time_str shot img text,
    (seconds, time_str) ∈ timestamps w /\
    screenshot_as_png w seconds = inr shot /\
    Image_open w shot = inr img /\
    image_to_string w img = inr text /\
    c ∈ recognize_video text.

(** The frames of [blank_thumbnail_world] with a player whose capture fails
    at 1:30. *)
Definition broken_frame_world : world :=
  let w := blank_thumbnail_world in
  {| image_urls := image_urls w;
     timestamps := timestamps w;
     requests_get := requests_get w;
     makedirs := makedirs w;
     write_file := write_file w;
     Image_open := Image_open w;
     image_to_string := image_to_string w;
     image_save := image_save w;
     as_completed := as_completed w;
     panopto_player := panopto_player w;
     video_element := video_element w;
     execute_script := execute_script w;
     screenshot_as_png := fun seconds =>
       if (seconds =? 90)%Z then raise WebDriverException
       else screenshot_as_png w seconds |}.

(** ** A page to run the extractions on *)

(** A strip of four thumbnails, the third of them past the hour, and an
    image outside the strip. *)
Definition strip_page : node :=
  let timestamp_div label :=
    Tag (py "div") [py "thumbnail-timestamp"] [] [NavigableString (py label)] in
  let thumbnail url label :=
    Tag (py "li") [py "thumbnail"] []
      [Tag (py "img") [] [(py "data-src", py url)] []; timestamp_div label] in
  Tag (py "[document]") [] []
    [Tag (py "ul") [py "thumbnail-strip"] []
       [thumbnail "https://host/t0.jpg" " 0:05 ";
        thumbnail "https://host/t1.jpg" "1:30";
        thumbnail "https://host/t2.jpg" "1:02:03";
        thumbnail "https://host/t3.jpg" "0:05"];
     Tag (py "div") [] [] [Tag (py "img") [] [(py "data-src", py "https://host/logo.png")] []]].

(** * Proofs *)

(** ** Strings *)

Lemma startswith_spec p s : startswith p s = true <-> exists t, s = p ++ t.
Proof.
  revert s. induction p as [|a p IH]; intros s; simpl.
  - split; [intros _; by exists s | done].
  - destruct s as [|b s].
    + split; [done | intros [t Ht]; done].
    + rewrite andb_true_iff, IH, Ascii.eqb_eq. split.
      * intros [-> [t ->]]. by exists t.
      * intros [t [= -> ->]]. split; [done | by exists t].
Qed.

Lemma str_in_spec sub s : str_in sub s = true <-> occurs_in sub s.
Proof.
  unfold occurs_in. induction s as [|c s IH]; simpl.
  - rewrite orb_false_r, startswith_spec. split.
    + intros [t Ht]. by exists [], t.
    + intros [a [b Hab]]. destruct a; [by exists b|done].
  - rewrite orb_true_iff, startswith_spec, IH. split.
    + intros [[t Ht]|[a [b Hab]]]; [by exists [], t|].
      exists (c :: a), b. by rewrite Hab.
    + intros [[|c' a] [b Hab]]; [left; by exists b|].
      right. injection Hab as -> ->. by exists a, b.
Qed.

Lemma occurs_in_lower sub s : occurs_in sub s -> occurs_in (lower sub) (lower s).
Proof.
  intros [a [b ->]]. exists (lower a), (lower b). unfold lower.
  by rewrite !map_app.
Qed.

Lemma occurs_in_drop sub s :
  occurs_in sub s <-> exists p, p <= length s /\ startswith sub (drop p s) = true.
Proof.
  split.
  - intros [a [b ->]]. exists (length a). split.
    + rewrite length_app. lia.
    + rewrite drop_app_length. apply startswith_spec. by exists b.
  - intros [p [_ Hp]]. apply startswith_spec in Hp as [t Ht].
    exists (take p s), t. rewrite <- Ht. by rewrite take_drop.
Qed.

Lemma drop_lookup_cons (s : str) i c : s !! i = Some c -> drop i s = c :: drop (S i) s.
Proof. intros H. by apply drop_S. Qed.

(** ** The matcher *)

Lemma elem_of_flat_map {A B} (f : A -> list B) (l : list A) (y : B) :
  y ∈ flat_map f l <-> exists x, x ∈ l /\ y ∈ f x.
Proof.
  rewrite list_elem_of_In, in_flat_map. 
  split; intros [x Hx]; exists x; by rewrite ?list_elem_of_In in *.
Qed.

Lemma flat_map_ext_elem {A B} (f g : A -> list B) (l : list A) :
  (forall x, x ∈ l -> f x = g x) -> flat_map f l = flat_map g l.
Proof.
  induction l as [|x l IH]; intros H; simpl; [done|].
  rewrite (H x), IH; [done| |apply list_elem_of_here].
  intros y Hy. apply H. by apply list_elem_of_further.
Qed.

(** Membership in a list that is empty or holds one position. *)
Ltac one_or_none := rewrite ?list_elem_of_singleton, ?elem_of_nil; lia.

Section Matcher.
  Context (text : str).

Lemma rep_ends_ge body lo fuel cnt i e :
  e ∈ rep_ends body lo fuel cnt i -> i <= e.
Proof.
  revert cnt i. induction fuel as [|fuel IH]; intros cnt i; simpl.
  - destruct (lo <=? cnt); [|by rewrite elem_of_nil].
    rewrite list_elem_of_singleton. lia.
  - rewrite elem_of_app. intros [H|H].
    + apply elem_of_flat_map in H as [j [_ Hj]].
      destruct (Nat.ltb_spec i j); [|by apply elem_of_nil in Hj].
      apply IH in Hj. lia.
    + destruct (lo <=? cnt); [|by apply elem_of_nil in H].
      apply list_elem_of_singleton in H. lia.
Qed.

Lemma ends_ge r i e : e ∈ ends r text i -> i <= e.
Proof.
  revert i e. induction r as [|p|r1 IH1 r2 IH2|r1 IH1 r2 IH2|r IH lo|p|p| |];
    intros i e; simpl.
  - rewrite list_elem_of_singleton. lia.
  - destruct (text !! i) as [c|]; [destruct (p c)|];
      one_or_none.
  - intros H. apply elem_of_flat_map in H as [j [Hj He]]. apply IH1 in Hj. apply IH2 in He. lia.
  - rewrite elem_of_app. intros [H|H]; eauto.
  - apply rep_ends_ge.
  - destruct i as [|k]; [|destruct (text !! k) as [c|]; [destruct (p c)|]];
      one_or_none.
  - destruct (text !! i) as [c|]; [destruct (p c)|];
      one_or_none.
  - destruct (i =? 0); one_or_none.
  - destruct (_ || _); one_or_none.
Qed.

Lemma match_at_ge r i e : match_at r text i = Some e -> i <= e.
Proof.
  unfold match_at. intros H. apply (ends_ge r).
  destruct (ends r text i); [done|]. injection H as ->. apply list_elem_of_here.
Qed.

Lemma rep_ends_le (body : nat -> list nat) (n lo fuel cnt i e : nat) :
  (forall j e', e' ∈ body j -> j <= n -> e' <= n) ->
  e ∈ rep_ends body lo fuel cnt i -> i <= n -> e <= n.
Proof.
  intros Hbody. revert cnt i. induction fuel as [|fuel IH]; intros cnt i; simpl.
  - destruct (lo <=? cnt); [|by rewrite elem_of_nil].
    rewrite list_elem_of_singleton. lia.
  - rewrite elem_of_app. intros [H|H] Hi.
    + apply elem_of_flat_map in H as [j [Hj He]].
      destruct (i <? j); [|by apply elem_of_nil in He].
      apply (IH _ _ He). by apply (Hbody i).
    + destruct (lo <=? cnt); [|by apply elem_of_nil in H].
      apply list_elem_of_singleton in H. lia.
Qed.

(** A match ends inside the text. *)
Lemma ends_le r i e :
  e ∈ ends r text i -> i <= length text -> e <= length text.
Proof.
  revert i e. induction r as [|p|r1 IH1 r2 IH2|r1 IH1 r2 IH2|r IH lo|p|p| |];
    intros i e; simpl.
  - rewrite list_elem_of_singleton. lia.
  - destruct (text !! i) as [c|] eqn:Hc; [destruct (p c)|];
      rewrite ?list_elem_of_singleton, ?elem_of_nil; try done.
    apply lookup_lt_Some in Hc. lia.
  - intros H Hi. apply elem_of_flat_map in H as [j [Hj He]]. eauto.
  - rewrite elem_of_app. intros [H|H]; eauto.
  - apply rep_ends_le. intros j e'. apply IH.
  - destruct i as [|k]; [|destruct (text !! k) as [c|]; [destruct (p c)|]];
      one_or_none.
  - destruct (text !! i) as [c|]; [destruct (p c)|];
      one_or_none.
  - destruct (i =? 0); one_or_none.
  - destruct (_ || _); one_or_none.
Qed.

(** The fuel of a loop is enough as soon as it exceeds the length of the
    text that is left: more fuel finds the same ends. *)
Lemma rep_ends_fuel (body : nat -> list nat) (n lo f1 f2 cnt i : nat) :
  (forall j e, e ∈ body j -> j <= n -> e <= n) ->
  i <= n -> S n - i <= f1 -> S n - i <= f2 ->
  rep_ends body lo f1 cnt i = rep_ends body lo f2 cnt i.
Proof.
  intros Hbody. revert f2 cnt i.
  induction f1 as [|f1 IH]; intros f2 cnt i Hi H1 H2; [lia|].
  destruct f2 as [|f2]; [lia|]. simpl. f_equal.
  apply flat_map_ext_elem. intros j Hj.
  destruct (Nat.ltb_spec i j); [|done].
  apply IH; [by apply (Hbody i)|lia|lia].
Qed.

Lemma ends_rep_fuel r lo i fuel :
  i <= length text -> S (length text) - i <= fuel ->
  rep_ends (ends r text) lo fuel 0 i = ends (Rep r lo) text i.
Proof.
  intros Hi Hfuel. apply (rep_ends_fuel _ (length text)); [|done|done|done].
  intros j e. apply ends_le.
Qed.

Lemma scan_fuel r f1 f2 pos :
  S (length text) <= f1 + pos -> S (length text) <= f2 + pos ->
  scan r text f1 pos = scan r text f2 pos.
Proof.
  revert f2 pos. induction f1 as [|f1 IH]; intros f2 pos H1 H2.
  - destruct f2 as [|f2]; [done|]. simpl.
    destruct (Nat.ltb_spec (length text) pos); [done | lia].
  - destruct f2 as [|f2]; simpl.
    + destruct (Nat.ltb_spec (length text) pos); [done | lia].
    + destruct (Nat.ltb_spec (length text) pos); [done|].
      destruct (match_at r text pos) as [e|] eqn:He.
      * apply match_at_ge in He. f_equal.
        destruct (Nat.eqb_spec e pos); apply IH; lia.
      * apply IH; lia.
Qed.

Lemma scan_skip r f pos q :
  (forall p, pos <= p < q -> match_at r text p = None) ->
  pos <= q -> S (length text) <= f + pos ->
  scan r text f pos = scan r text f q.
Proof.
  intros Hnone Hle. induction Hle as [|q Hle IH]; intros Hf; [done|].
  rewrite IH by (try intros p Hp; try apply Hnone; lia).
  destruct f as [|f]; [done|]. simpl.
  destruct (Nat.ltb_spec (length text) q).
  - destruct (Nat.ltb_spec (length text) (S q)); [done | lia].
  - rewrite Hnone by lia.
    destruct (Nat.ltb_spec (length text) (S q)).
    + destruct f; [done|]. simpl. by destruct (Nat.ltb_spec (length text) (S q)); [|lia].
    + rewrite (scan_fuel r f (S f)) by lia. simpl.
      by destruct (Nat.ltb_spec (length text) (S q)); [lia|].
Qed.

Lemma scan_elem r f pos s e :
  (s, e) ∈ scan r text f pos -> pos <= s <= length text /\ match_at r text s = Some e.
Proof.
  revert pos. induction f as [|f IH]; intros pos; simpl; [by rewrite elem_of_nil|].
  destruct (Nat.ltb_spec (length text) pos); [by rewrite elem_of_nil|].
  destruct (match_at r text pos) as [e'|] eqn:He.
  - rewrite elem_of_cons. intros [[= -> ->]|Hin]; [split; [lia|done]|].
    apply match_at_ge in He. apply IH in Hin.
    destruct (Nat.eqb_spec e' pos); split; try tauto; lia.
  - intros Hin. apply IH in Hin. split; [lia | tauto].
Qed.

Lemma scan_nil r f pos :
  S (length text) <= f + pos ->
  scan r text f pos = [] <->
  forall p, pos <= p <= length text -> match_at r text p = None.
Proof.
  intros Hf. split.
  - revert pos Hf. induction f as [|f IH]; intros pos Hf Hnil p Hp; [lia|].
    simpl in Hnil. destruct (Nat.ltb_spec (length text) pos); [lia|].
    destruct (match_at r text pos) as [e|] eqn:He; [done|].
    destruct (decide (p = pos)) as [->|]; [done|]. apply (IH (S pos)); [lia|done|lia].
  - intros Hnone. destruct (scan r text f pos) as [|[s e] l] eqn:Hscan; [done|].
    assert (Hin : (s, e) ∈ scan r text f pos) by (rewrite Hscan; apply list_elem_of_here).
    apply scan_elem in Hin as [Hs He]. rewrite Hnone in He; [done | lia].
Qed.

Lemma ends_lit s i :
  ends (lit s) text i = if startswith s (drop i text) then [i + length s] else [].
Proof.
  revert i. induction s as [|c s IH]; intros i; simpl.
  - by rewrite Nat.add_0_r.
  - destruct (text !! i) as [c'|] eqn:Hc.
    + rewrite (drop_lookup_cons _ _ _ Hc). destruct (Ascii.eqb_spec c c') as [->|]; simpl; [|done].
      rewrite IH, app_nil_r. destruct (startswith s _); [|done]. f_equal. lia.
    + apply lookup_ge_None in Hc. by rewrite drop_ge.
Qed.

End Matcher.

Lemma re_search_lit2 a b s :
  re_search (Alt (lit a) (lit b)) s = true <-> occurs_in a s \/ occurs_in b s.
Proof.
  unfold re_search, re_finditer. rewrite bool_decide_eq_true.
  rewrite scan_nil by lia. split.
  - intros Hex.
    destruct (str_in a s) eqn:Ha; [left; by apply str_in_spec|].
    destruct (str_in b s) eqn:Hb; [right; by apply str_in_spec|].
    exfalso. apply Hex. intros p Hp. unfold match_at. simpl. rewrite !ends_lit.
    destruct (startswith a (drop p s)) eqn:Hpa.
    { assert (str_in a s = true); [|congruence].
      apply str_in_spec, occurs_in_drop. exists p. split; [lia|done]. }
    destruct (startswith b (drop p s)) eqn:Hpb; [|done].
    assert (str_in b s = true); [|congruence].
    apply str_in_spec, occurs_in_drop. exists p. split; [lia|done].
  - rewrite !occurs_in_drop.
    intros [[p [Hp Hs]]|[p [Hp Hs]]] Hnone;
      (assert (Hr : 0 <= p <= length s) by lia); specialize (Hnone p Hr);
      unfold match_at in Hnone; simpl in Hnone; rewrite !ends_lit, Hs in Hnone;
      [done | by destruct (startswith a _)].
Qed.

(** ** Loops over one class of characters *)

Lemma downto_S_S h l : downto (S h) (S l) = map S (downto h l).
Proof.
  revert l. induction h as [|h IH]; intros l.
  - simpl. by destruct l.
  - change (downto (S (S h)) (S l))
      with (if S (S h) <? S l then [] else S (S h) :: downto (S h) (S l)).
    change (downto (S h) l) with (if S h <? l then [] else S h :: downto h l).
    rewrite IH.
    destruct (Nat.ltb_spec (S (S h)) (S l)), (Nat.ltb_spec (S h) l); try lia; done.
Qed.

Lemma downto_S_0 h : downto (S h) 0 = map S (downto h 0) ++ [0].
Proof.
  induction h as [|h IH]; [done|].
  change (downto (S (S h)) 0) with (S (S h) :: downto (S h) 0).
  change (downto (S h) 0) with (S h :: downto h 0) at 2.
  rewrite IH. done.
Qed.

Lemma elem_of_downto k hi lo : k ∈ downto hi lo <-> lo <= k <= hi.
Proof.
  induction hi as [|h IH].
  - simpl. destruct (Nat.ltb_spec 0 lo).
    + rewrite elem_of_nil. lia.
    + rewrite list_elem_of_singleton. lia.
  - change (downto (S h) lo) with (if S h <? lo then [] else S h :: downto h lo).
    destruct (Nat.ltb_spec (S h) lo).
    + rewrite elem_of_nil. lia.
    + rewrite elem_of_cons, IH. lia.
Qed.

Lemma downto_cons hi lo :
  lo <= hi -> exists tl, downto hi lo = hi :: tl /\ forall k, k ∈ tl -> lo <= k < hi.
Proof.
  intros Hle. destruct hi as [|h].
  - exists []. simpl. destruct (Nat.ltb_spec 0 lo); [lia|]. split; [done|].
    intros k Hk. by apply elem_of_nil in Hk.
  - exists (downto h lo).
    change (downto (S h) lo) with (if S h <? lo then [] else S h :: downto h lo).
    destruct (Nat.ltb_spec (S h) lo); [lia|]. split; [done|].
    intros k Hk. apply elem_of_downto in Hk. lia.
Qed.

Lemma downto_nil hi lo : hi < lo -> downto hi lo = [].
Proof.
  intros Hlt. destruct (downto hi lo) as [|k tl] eqn:Hd; [done|].
  assert (Hk : k ∈ downto hi lo) by (rewrite Hd; apply list_elem_of_here).
  apply elem_of_downto in Hk. lia.
Qed.

Section ClassLoop.
  Context (p : ascii -> bool).

Lemma span_len_le s : span_len p s <= length s.
Proof. induction s as [|c s IH]; simpl; [done|]. destruct (p c); lia. Qed.

Lemma span_len_lookup s k :
  k < span_len p s -> exists c, s !! k = Some c /\ p c = true.
Proof.
  revert k. induction s as [|c s IH]; intros k; simpl; [lia|].
  destruct (p c) eqn:Hc; [|lia]. destruct k as [|k]; [by exists c|].
  intros Hk. apply IH. lia.
Qed.

Lemma span_len_take s k :
  k <= span_len p s -> forallb p (take k s) = true /\ length (take k s) = k.
Proof.
  revert k. induction s as [|c s IH]; intros k; simpl.
  - intros Hk. assert (k = 0) as -> by lia. done.
  - destruct (p c) eqn:Hc.
    + destruct k as [|k]; [done|]. intros Hk. simpl. rewrite Hc.
      destruct (IH k) as [-> ->]; [lia|done].
    + intros Hk. assert (k = 0) as -> by lia. done.
Qed.

Lemma span_len_app t rest :
  forallb p t = true ->
  (rest = [] \/ exists c rest', rest = c :: rest' /\ p c = false) ->
  span_len p (t ++ rest) = length t.
Proof.
  intros Ht Hrest. induction t as [|c t IH]; simpl.
  - destruct Hrest as [->|[c [rest' [-> Hc]]]]; simpl; [done|by rewrite Hc].
  - simpl in Ht. apply andb_true_iff in Ht as [-> Ht]. by rewrite IH.
Qed.

Lemma rep_ends_chr text lo fuel cnt i :
  span_len p (drop i text) <= fuel ->
  rep_ends (ends (Chr p) text) lo fuel cnt i =
    map (fun k => i + k) (downto (span_len p (drop i text)) (lo - cnt)).
Proof.
  assert (Hstop : forall i cnt,
    (if lo <=? cnt then [i] else []) = map (fun k => i + k) (downto 0 (lo - cnt))).
  { intros j c. simpl. destruct (Nat.leb_spec lo c).
    - replace (lo - c) with 0 by lia. simpl. by rewrite Nat.add_0_r.
    - destruct (Nat.ltb_spec 0 (lo - c)); [done|lia]. }
  revert cnt i. induction fuel as [|fuel IH]; intros cnt i Hfuel.
  - assert (span_len p (drop i text) = 0) as -> by lia. simpl rep_ends. apply Hstop.
  - cbn [rep_ends ends]. destruct (text !! i) as [c|] eqn:Hc.
    + rewrite (drop_S _ _ _ Hc) in *. simpl in Hfuel |- *. destruct (p c).
      * cbn [flat_map]. rewrite (proj2 (Nat.ltb_lt i (S i))) by lia.
        rewrite app_nil_r, IH by lia.
        set (n := span_len p (drop (S i) text)).
        destruct (Nat.leb_spec lo cnt).
        -- replace (lo - S cnt) with 0 by lia. replace (lo - cnt) with 0 by lia.
           rewrite downto_S_0, map_app, map_map. simpl. rewrite Nat.add_0_r.
           f_equal. apply map_ext. intros; lia.
        -- replace (lo - cnt) with (S (lo - S cnt)) by lia.
           rewrite downto_S_S, map_map. rewrite app_nil_r.
           apply map_ext. intros; lia.
      * apply Hstop.
    + apply lookup_ge_None in Hc. rewrite drop_ge by done. apply Hstop.
Qed.

Lemma ends_rep_chr lo text i :
  ends (Rep (Chr p) lo) text i =
    map (fun k => i + k) (downto (span_len p (drop i text)) lo).
Proof.
  change (ends (Rep (Chr p) lo) text i)
    with (rep_ends (ends (Chr p) text) lo (S (length text) - i) 0 i).
  rewrite rep_ends_chr, Nat.sub_0_r; [done|].
  pose proof (span_len_le (drop i text)) as Hle. rewrite length_drop in Hle. lia.
Qed.

End ClassLoop.

(** ** The code patterns *)

Lemma upper_is_boundary c : is_upper c = true -> boundary c = true.
Proof. unfold boundary. intros ->. by rewrite orb_true_r. Qed.

Lemma upper_not_space c : is_upper c = true -> Ascii.eqb " " c = false.
Proof. destruct (Ascii.eqb_spec " " c) as [<-|]; [by vm_compute | done]. Qed.

Lemma rep_ends_lo body lo1 lo2 fuel cnt i :
  lo1 <= cnt -> lo2 <= cnt ->
  rep_ends body lo1 fuel cnt i = rep_ends body lo2 fuel cnt i.
Proof.
  revert cnt i. induction fuel as [|fuel IH]; intros cnt i H1 H2; simpl;
    rewrite (proj2 (Nat.leb_le lo1 cnt)), (proj2 (Nat.leb_le lo2 cnt)) by done; [done|].
  f_equal. apply flat_map_ext. intros j. destruct (i <? j); [|done]. apply IH; lia.
Qed.

Lemma groups_star_plus text j :
  ends (Rep group 0) text j = ends (Rep group 1) text j ++ [j].
Proof.
  change (rep_ends (ends group text) 0 (S (length text) - j) 0 j =
          rep_ends (ends group text) 1 (S (length text) - j) 0 j ++ [j]).
  destruct (S (length text) - j) as [|fuel]; [done|].
  cbn [rep_ends]. simpl (1 <=? 0). simpl (0 <=? 0). rewrite app_nil_r. f_equal.
  apply flat_map_ext. intros j'. destruct (j <? j'); [|done]. apply rep_ends_lo; lia.
Qed.

Lemma groups_at_upper lo text j c :
  text !! j = Some c -> is_upper c = true ->
  ends (Rep group lo) text j = if lo <=? 0 then [j] else [].
Proof.
  intros Hc Hup.
  change (ends (Rep group lo) text j)
    with (rep_ends (ends group text) lo (S (length text) - j) 0 j).
  destruct (S (length text) - j) as [|fuel]; [done|].
  cbn [rep_ends]. replace (ends group text j) with (@nil nat); [done|].
  unfold group. cbn [ends]. by rewrite Hc, upper_not_space.
Qed.

Lemma ahead_at_upper text j c :
  text !! j = Some c -> is_upper c = true -> ends (NotAhead boundary) text j = [].
Proof. intros Hc Hup. cbn [ends]. by rewrite Hc, upper_is_boundary. Qed.

Lemma flat_map_nil {A B} (f : A -> list B) (l : list A) :
  (forall x, x ∈ l -> f x = []) -> flat_map f l = [].
Proof.
  induction l as [|x l IH]; intros H; simpl; [done|].
  rewrite H, IH; [done| |apply list_elem_of_here].
  intros y Hy. apply H. by apply list_elem_of_further.
Qed.

(** After the look-behind, only the whole run of capitals can start a match:
    a shorter one is followed by a capital, which is neither a space nor
    allowed by the look-ahead. *)
Lemma ends_code_body lo text i :
  ends (Seq (Rep (Chr is_upper) 2) (Seq (Rep group lo) (NotAhead boundary))) text i =
    let n := span_len is_upper (drop i text) in
    if 2 <=? n
    then flat_map (ends (NotAhead boundary) text) (ends (Rep group lo) text (i + n))
    else [].
Proof.
  cbn zeta. set (n := span_len is_upper (drop i text)).
  change (ends (Seq ?r1 ?r2) text i) with (flat_map (ends r2 text) (ends r1 text i)).
  rewrite ends_rep_chr. fold n. destruct (Nat.leb_spec 2 n) as [Hn|Hn].
  - destruct (downto_cons n 2 Hn) as [tl [-> Htl]]. cbn [map flat_map].
    rewrite flat_map_nil; [by rewrite app_nil_r|].
    intros j Hj. apply list_elem_of_fmap in Hj as [k [-> Hk]]. apply Htl in Hk.
    destruct (span_len_lookup is_upper (drop i text) k) as [c [Hc Hup]]; [fold n; lia|].
    rewrite lookup_drop in Hc.
    change (ends (Seq ?r1 ?r2) text ?j) with (flat_map (ends r2 text) (ends r1 text j)).
    rewrite (groups_at_upper lo text _ c Hc Hup).
    destruct (lo <=? 0); [|done]. cbn [flat_map].
    by rewrite (ahead_at_upper text _ c Hc Hup).
  - by rewrite downto_nil.
Qed.

Lemma code_pattern_unfold lo text i :
  ends (code_pattern lo) text i =
    flat_map (fun i' =>
      let n := span_len is_upper (drop i' text) in
      if 2 <=? n
      then flat_map (ends (NotAhead boundary) text) (ends (Rep group lo) text (i' + n))
      else [])
    (ends (NotBehind boundary) text i).
Proof.
  unfold code_pattern.
  change (ends (Seq ?r1 ?r2) text i) with (flat_map (ends r2 text) (ends r1 text i)).
  apply flat_map_ext. intros i'. apply ends_code_body.
Qed.

Lemma not_behind_cases p text i :
  ends (NotBehind p) text i = [] \/ ends (NotBehind p) text i = [i].
Proof.
  cbn [ends]. destruct i as [|k]; [by right|].
  destruct (text !! k) as [c|]; [destruct (p c)|]; auto.
Qed.

(** The thumbnail pattern finds what the video pattern finds and, after it,
    the run of capitals alone. *)
Lemma thumbnail_pattern_ends text i :
  ends thumbnail_code_pattern text i =
    ends video_code_pattern text i ++
    flat_map (fun i' =>
      let n := span_len is_upper (drop i' text) in
      if 2 <=? n then ends (NotAhead boundary) text (i' + n) else [])
    (ends (NotBehind boundary) text i).
Proof.
  unfold thumbnail_code_pattern, video_code_pattern. rewrite !code_pattern_unfold.
  destruct (not_behind_cases boundary text i) as [->| ->]; [done|].
  cbn [flat_map]. rewrite !app_nil_r. cbn zeta.
  destruct (2 <=? _); [|done].
  rewrite groups_star_plus, flat_map_app. cbn [flat_map]. by rewrite app_nil_r.
Qed.

(** ** What a match of a code pattern looks like *)

Lemma reads_slice text i e s : reads text i e s -> slice text i e = s.
Proof. intros [-> Hs]. unfold slice. by replace (i + length s - i) with (length s) by lia. Qed.

Lemma reads_nil text i : reads text i i [].
Proof. split; simpl; [lia|]. by rewrite take_0. Qed.

Lemma reads_app text i j e s1 s2 :
  reads text i j s1 -> reads text j e s2 -> reads text i e (s1 ++ s2).
Proof.
  intros [-> H1] [-> H2]. split; [rewrite length_app; lia|].
  rewrite length_app, <- take_take_drop, drop_drop, H1, H2. done.
Qed.

Lemma reads_cons text i e c s :
  text !! i = Some c -> reads text (S i) e s -> reads text i e (c :: s).
Proof.
  intros Hc [-> Hs]. split; [simpl; lia|].
  rewrite (drop_S _ _ _ Hc). simpl. by rewrite Hs.
Qed.

Lemma run_sound p lo text i e :
  e ∈ ends (Rep (Chr p) lo) text i ->
  exists t, reads text i e t /\ lo <= length t /\ forallb p t = true.
Proof.
  rewrite ends_rep_chr. intros He. apply list_elem_of_fmap in He as [k [-> Hk]].
  apply elem_of_downto in Hk.
  destruct (span_len_take p (drop i text) k) as [Hall Hlen]; [lia|].
  exists (take k (drop i text)). unfold reads. rewrite Hlen.
  repeat split; try done; lia.
Qed.

Lemma group_sound text j e :
  e ∈ ends group text j -> exists t, token t /\ reads text j e (" "%char :: t).
Proof.
  unfold group.
  change (ends (Seq ?r1 ?r2) text j) with (flat_map (ends r2 text) (ends r1 text j)).
  intros He. apply elem_of_flat_map in He as [j' [Hj' He]].
  cbn [ends] in Hj'. destruct (text !! j) as [c|] eqn:Hc; [|by apply elem_of_nil in Hj'].
  destruct (Ascii.eqb_spec " " c) as [<-|]; [|by apply elem_of_nil in Hj'].
  apply list_elem_of_singleton in Hj' as ->.
  apply run_sound in He as [t [Hread [Hlen Hup]]].
  exists t. split; [done|]. by apply reads_cons.
Qed.

Lemma groups_sound text lo fuel cnt j e :
  e ∈ rep_ends (ends group text) lo fuel cnt j ->
  exists ts, Forall token ts /\ lo <= cnt + length ts /\
    reads text j e (flat_map (fun t => " "%char :: t) ts).
Proof.
  assert (Hstop : forall cnt j, e ∈ (if lo <=? cnt then [j] else []) ->
    exists ts, Forall token ts /\ lo <= cnt + length ts /\
      reads text j e (flat_map (fun t => " "%char :: t) ts)).
  { intros c j'. destruct (Nat.leb_spec lo c); [|by rewrite elem_of_nil].
    rewrite list_elem_of_singleton. intros ->. exists [].
    split; [done|]. split; [simpl; lia|apply reads_nil]. }
  revert cnt j. induction fuel as [|fuel IH]; intros cnt j; simpl; [apply Hstop|].
  rewrite elem_of_app. intros [He|He]; [|by apply Hstop].
  apply elem_of_flat_map in He as [j' [Hj' He]].
  destruct (j <? j'); [|by apply elem_of_nil in He].
  apply group_sound in Hj' as [t [Ht Hread]].
  apply IH in He as [ts [Hts [Hlen Hreads]]].
  exists (t :: ts). split; [by constructor|]. split; [simpl; lia|].
  cbn [flat_map]. by eapply reads_app.
Qed.

Lemma not_behind_elem p text i i' :
  i' ∈ ends (NotBehind p) text i ->
  i' = i /\ forall k c, i = S k -> text !! k = Some c -> p c = false.
Proof.
  cbn [ends]. destruct i as [|k].
  - rewrite list_elem_of_singleton. intros ->. split; [done|]. intros; lia.
  - destruct (text !! k) as [c|] eqn:Hc; [destruct (p c) eqn:Hp|];
      rewrite ?elem_of_nil, ?list_elem_of_singleton; try done;
      intros ->; (split; [done|]); intros k' c' [= <-]; congruence.
Qed.

Lemma not_ahead_elem p text e e' :
  e' ∈ ends (NotAhead p) text e ->
  e' = e /\ forall c, text !! e = Some c -> p c = false.
Proof.
  cbn [ends]. destruct (text !! e) as [c|] eqn:Hc; [destruct (p c) eqn:Hp|];
    rewrite ?elem_of_nil, ?list_elem_of_singleton; try done;
    intros ->; (split; [done|]); congruence.
Qed.

Lemma code_pattern_sound lo text i e :
  e ∈ ends (code_pattern lo) text i ->
  clear_before text i /\ clear_after text e /\
  exists t ts, token t /\ Forall token ts /\ lo <= length ts /\
    reads text i e (spaced t ts).
Proof.
  rewrite code_pattern_unfold. intros He.
  apply elem_of_flat_map in He as [i' [Hi' He]].
  apply not_behind_elem in Hi' as [-> Hbefore]. cbn zeta in He.
  destruct (Nat.leb_spec 2 (span_len is_upper (drop i text))) as [Hn|Hn];
    [|by apply elem_of_nil in He].
  apply elem_of_flat_map in He as [j [Hj He]].
  apply not_ahead_elem in He as [-> Hafter].
  apply groups_sound in Hj as [ts [Hts [Hlen Hreads]]].
  destruct (span_len_take is_upper (drop i text) _ (Nat.le_refl _)) as [Hall Hlent].
  set (n := span_len is_upper (drop i text)) in *.
  split; [done|]. split; [done|].
  exists (take n (drop i text)), ts.
  split; [split; [lia|done]|]. split; [done|]. split; [lia|].
  unfold spaced. eapply reads_app; [|done]. split; by rewrite Hlent.
Qed.

Lemma head_elem {A} (l : list A) x : head l = Some x -> x ∈ l.
Proof. destruct l; [done|]. intros [= ->]. apply list_elem_of_here. Qed.

(** ** The thumbnail pattern against the video pattern *)

Lemma match_video_thumbnail text i e :
  match_at video_code_pattern text i = Some e ->
  match_at thumbnail_code_pattern text i = Some e.
Proof.
  unfold match_at. rewrite thumbnail_pattern_ends.
  by destruct (ends video_code_pattern text i).
Qed.

Lemma match_thumbnail_only text i e :
  match_at video_code_pattern text i = None ->
  match_at thumbnail_code_pattern text i = Some e ->
  i < e /\ forall k, i <= k < e -> exists c, text !! k = Some c /\ is_upper c = true.
Proof.
  unfold match_at. rewrite thumbnail_pattern_ends.
  destruct (ends video_code_pattern text i); [|done]. intros _ He.
  apply head_elem in He. cbn [app] in He.
  apply elem_of_flat_map in He as [i' [Hi' He]].
  apply not_behind_elem in Hi' as [-> _]. cbn zeta in He.
  destruct (Nat.leb_spec 2 (span_len is_upper (drop i text))) as [Hn|Hn];
    [|by apply elem_of_nil in He].
  apply not_ahead_elem in He as [-> _]. split; [lia|].
  intros k Hk.
  destruct (span_len_lookup is_upper (drop i text) (k - i)) as [c [Hc Hup]]; [lia|].
  rewrite lookup_drop in Hc. replace (i + (k - i)) with k in Hc by lia. eauto.
Qed.

Lemma match_after_upper lo text k c :
  text !! k = Some c -> is_upper c = true ->
  match_at (code_pattern lo) text (S k) = None.
Proof.
  intros Hc Hup. unfold match_at. rewrite code_pattern_unfold.
  cbn [ends]. by rewrite Hc, upper_is_boundary.
Qed.

(** The matches of the video pattern are among those of the thumbnail
    pattern, in the same order. *)
Lemma scan_video_sublist text fuel pos :
  S (length text) <= fuel + pos ->
  scan video_code_pattern text fuel pos `sublist_of`
  scan thumbnail_code_pattern text fuel pos.
Proof.
  revert pos. induction fuel as [|fuel IH]; intros pos Hf; simpl; [constructor|].
  destruct (Nat.ltb_spec (length text) pos); [constructor|].
  destruct (match_at video_code_pattern text pos) as [e|] eqn:Hv.
  - rewrite (match_video_thumbnail _ _ _ Hv). apply match_at_ge in Hv.
    apply sublist_skip. destruct (Nat.eqb_spec e pos); apply IH; lia.
  - destruct (match_at thumbnail_code_pattern text pos) as [e|] eqn:Ht.
    + destruct (match_thumbnail_only _ _ _ Hv Ht) as [Hlt Hup].
      rewrite (proj2 (Nat.eqb_neq e pos)) by lia. apply sublist_cons.
      rewrite (scan_skip text video_code_pattern fuel (S pos) e); [apply IH; lia| |lia|lia].
      intros p Hp. destruct p as [|k]; [lia|].
      destruct (Hup k) as [c [Hc Hc']]; [lia|]. by eapply match_after_upper.
    + apply IH. lia.
Qed.

Lemma filter_sublist {A} (f : A -> bool) (l1 l2 : list A) :
  l1 `sublist_of` l2 -> List.filter f l1 `sublist_of` List.filter f l2.
Proof.
  induction 1 as [|x l1 l2 _ IH|x l1 l2 _ IH]; simpl; [constructor| |];
    destruct (f x); try done; by constructor.
Qed.

Lemma video_matches_sublist text :
  filter_matches (re_findall video_code_pattern text) `sublist_of`
  filter_matches (re_findall thumbnail_code_pattern text).
Proof.
  unfold filter_matches, re_findall, re_finditer.
  apply filter_sublist, (fmap_sublist (fun se => slice text se.1 se.2)), scan_video_sublist. lia.
Qed.

(** ** One token against two *)

Lemma not_behind_clear text i :
  clear_before text i -> ends (NotBehind boundary) text i = [i].
Proof.
  intros Hclear. cbn [ends]. destruct i as [|k]; [done|].
  destruct (text !! k) as [c|] eqn:Hc; [|done]. by rewrite (Hclear k c).
Qed.

Lemma not_ahead_clear text e :
  clear_after text e -> ends (NotAhead boundary) text e = [e].
Proof.
  intros Hclear. cbn [ends]. destruct (text !! e) as [c|] eqn:Hc; [|done].
  by rewrite (Hclear c).
Qed.

Lemma not_boundary_not_upper c : boundary c = false -> is_upper c = false.
Proof.
  intros Hb. destruct (is_upper c) eqn:Hup; [|done].
  by rewrite upper_is_boundary in Hb.
Qed.

Lemma lookup_after_drop (text t rest : str) i :
  drop i text = t ++ rest -> text !! (i + length t) = rest !! 0.
Proof.
  intros Hd. rewrite <- lookup_drop, Hd, lookup_app_r by lia.
  by rewrite Nat.sub_diag.
Qed.

Lemma drop_after_drop (text t rest : str) i :
  drop i text = t ++ rest -> drop (i + length t) text = rest.
Proof. intros Hd. by rewrite <- drop_drop, Hd, drop_app_length. Qed.

(** A token alone, not followed by a space and two capitals: the thumbnail
    pattern matches it, the video pattern does not. *)
Lemma lone_token text i t rest :
  drop i text = t ++ rest -> token t ->
  clear_before text i -> clear_after text (i + length t) ->
  (forall c1 c2 rest', rest = " "%char :: c1 :: c2 :: rest' ->
     is_upper c1 && is_upper c2 = false) ->
  match_at thumbnail_code_pattern text i = Some (i + length t) /\
  match_at video_code_pattern text i = None.
Proof.
  intros Hd [Hlen Hup] Hbefore Hafter Hnext.
  assert (Hn : span_len is_upper (drop i text) = length t).
  { rewrite Hd. apply span_len_app; [done|].
    destruct rest as [|c rest']; [by left|right]. exists c, rest'. split; [done|].
    apply not_boundary_not_upper, Hafter. by rewrite (lookup_after_drop _ _ _ _ Hd). }
  assert (Hv : ends video_code_pattern text i = []).
  { unfold video_code_pattern. rewrite code_pattern_unfold, not_behind_clear by done.
    cbn [flat_map]. cbn zeta. rewrite Hn, app_nil_r.
    destruct (2 <=? length t); [|done].
    change (ends (Rep group 1) text (i + length t))
      with (rep_ends (ends group text) 1 (S (length text) - (i + length t)) 0 (i + length t)).
    destruct (S (length text) - (i + length t)) as [|fuel]; [done|].
    cbn [rep_ends]. replace (ends group text (i + length t)) with (@nil nat); [done|].
    unfold group.
    change (ends (Seq ?r1 ?r2) text ?j) with (flat_map (ends r2 text) (ends r1 text j)).
    change (ends (Chr ?p) text ?j)
      with (match text !! j with Some c => if p c then [S j] else [] | None => [] end).
    rewrite (lookup_after_drop _ _ _ _ Hd).
    destruct rest as [|c rest1]; [done|]. cbn [lookup list_lookup].
    destruct (Ascii.eqb_spec " " c) as [<-|]; [|done]. cbn [flat_map].
    rewrite ends_rep_chr, app_nil_r, downto_nil; [done|].
    replace (S (i + length t)) with (i + length t + 1) by lia.
    rewrite <- drop_drop, (drop_after_drop _ _ _ _ Hd). cbn [drop].
    destruct rest1 as [|c1 [|c2 rest']]; simpl; [lia|destruct (is_upper c1); lia|].
    specialize (Hnext c1 c2 rest' eq_refl).
    destruct (is_upper c1), (is_upper c2); try done; lia. }
  unfold match_at. rewrite thumbnail_pattern_ends, Hv, not_behind_clear by done.
  cbn [app flat_map]. cbn zeta. rewrite Hn, (proj2 (Nat.leb_le 2 (length t))) by done.
  by rewrite not_ahead_clear.
Qed.

Lemma token_alone t :
  token t ->
  re_findall thumbnail_code_pattern t = [t] /\ re_findall video_code_pattern t = [].
Proof.
  intros Ht. pose proof Ht as [Hlen Hup].
  destruct (lone_token t 0 t []) as [Hth Hv]; try done.
  { by rewrite app_nil_r. }
  { intros c Hc. apply lookup_lt_Some in Hc. simpl in Hc. lia. }
  assert (Hlater : forall lo p, 0 < p <= length t -> match_at (code_pattern lo) t p = None).
  { intros lo [|k] Hp; [lia|].
    destruct (lookup_lt_is_Some_2 t k) as [c Hc]; [lia|].
    apply (match_after_upper lo t k c Hc).
    rewrite forallb_forall in Hup. apply Hup, list_elem_of_In. by eapply list_elem_of_lookup_2. }
  unfold re_findall, re_finditer. split.
  - cbn [scan]. rewrite (proj2 (Nat.ltb_ge (length t) 0)) by lia. rewrite Hth.
    cbn [Nat.add]. rewrite (proj2 (Nat.eqb_neq (length t) 0)) by lia.
    assert (scan thumbnail_code_pattern t (length t) (length t) = []) as ->.
    { apply scan_nil; [lia|]. intros p Hp. apply Hlater. lia. }
    cbn [map fst snd]. unfold slice. rewrite Nat.sub_0_r. cbn [drop].
    by rewrite firstn_all.
  - assert (scan video_code_pattern t (S (length t)) 0 = []) as ->; [|done].
    apply scan_nil; [lia|].
    intros p Hp. destruct p as [|k]; [done|]. apply (Hlater 1). lia.
Qed.

Lemma finditer_sound lo text s e :
  (s, e) ∈ re_finditer (code_pattern lo) text ->
  clear_before text s /\ clear_after text e /\
  exists t ts, token t /\ Forall token ts /\ lo <= length ts /\
    reads text s e (spaced t ts).
Proof.
  intros Hin. apply scan_elem in Hin as [_ Hm].
  apply code_pattern_sound. by apply head_elem.
Qed.

(** C2. The primary code pattern differs between the phases by one token.
    A match of the thumbnail pattern is one or more capital tokens of length
    at least 2 joined by single spaces (first part), a match of the video
    pattern at least two of them (second part); for both the character just
    before and the character just after the match are outside
    [[a-zA-Z0-9:/.]]. A token standing alone, not followed by a space and two
    capitals, is matched by the thumbnail pattern and not by the video
    pattern (third part); on a text that is one token, [re.findall] returns
    that token for the thumbnail pattern and nothing for the video pattern
    (fourth part). *)
Theorem code_patterns_differ_by_one_token :
  (forall text s e, (s, e) ∈ re_finditer thumbnail_code_pattern text ->
     clear_before text s /\ clear_after text e /\
     exists t ts, token t /\ Forall token ts /\ slice text s e = spaced t ts) /\
  (forall text s e, (s, e) ∈ re_finditer video_code_pattern text ->
     clear_before text s /\ clear_after text e /\
     exists t ts, token t /\ Forall token ts /\ 1 <= length ts /\
       slice text s e = spaced t ts) /\
  (forall text i t rest,
     drop i text = t ++ rest -> token t ->
     clear_before text i -> clear_after text (i + length t) ->
     (forall c1 c2 rest', rest = " "%char :: c1 :: c2 :: rest' ->
        is_upper c1 && is_upper c2 = false) ->
     match_at thumbnail_code_pattern text i = Some (i + length t) /\
     match_at video_code_pattern text i = None) /\
  (forall t, token t ->
     re_findall thumbnail_code_pattern t = [t] /\
     re_findall video_code_pattern t = []).
Proof.
  split; [|split; [|split]].
  - intros text s e Hin.
    apply finditer_sound in Hin as (Hb & Ha & t & ts & Ht & Hts & _ & Hr).
    split; [done|]. split; [done|]. exists t, ts. eauto using reads_slice.
  - intros text s e Hin.
    apply finditer_sound in Hin as (Hb & Ha & t & ts & Ht & Hts & Hlen & Hr).
    split; [done|]. split; [done|]. exists t, ts. eauto using reads_slice.
  - apply lone_token.
  - apply token_alone.
Qed.

Lemma code_patterns_differ_by_one_token_witness :
  token (py "CAT") /\
  re_findall thumbnail_code_pattern (py "CAT") = [py "CAT"] /\
  re_findall video_code_pattern (py "CAT") = [].
Proof.
  assert (Ht : token (py "CAT")) by (split; [simpl; lia | reflexivity]).
  split; [exact Ht|].
  destruct code_patterns_differ_by_one_token as (_ & _ & _ & H). exact (H _ Ht).
Defined.

(** ** Recognition *)

Lemma indicator_spec s :
  re_search indicator_pattern s = true <->
  occurs_in (py "attendance code") s \/ occurs_in (py "clicker question") s.
Proof. apply re_search_lit2. Qed.

Lemma not_url_spec m :
  not_url m = true <->
  forall url_term, url_term ∈ url_terms -> ~ occurs_in url_term (lower m).
Proof.
  unfold not_url. rewrite negb_true_iff, <- not_true_iff_false, existsb_exists.
  split.
  - intros Hno u Hu Hocc. apply Hno. exists u.
    split; [by apply list_elem_of_In | by apply str_in_spec].
  - intros Hno [u [Hu Hin]]. apply (Hno u); [by apply list_elem_of_In | by apply str_in_spec].
Qed.

Lemma elem_of_filter_matches m matches :
  m ∈ filter_matches matches <->
  m ∈ matches /\ forall url_term, url_term ∈ url_terms -> ~ occurs_in url_term (lower m).
Proof.
  unfold filter_matches. by rewrite list_elem_of_In, filter_In, <- list_elem_of_In, not_url_spec.
Qed.

Lemma filter_matches_all matches :
  (forall m url_term, m ∈ matches -> url_term ∈ url_terms ->
     ~ occurs_in url_term (lower m)) ->
  filter_matches matches = matches.
Proof.
  unfold filter_matches. induction matches as [|m l IH]; intros Hall; simpl; [done|].
  rewrite (proj2 (not_url_spec m)), IH; [done| |].
  - intros m' u Hm'. apply Hall. by apply list_elem_of_further.
  - intros u. apply Hall, list_elem_of_here.
Qed.

Lemma reads_occurs text i e s : reads text i e s -> occurs_in s text.
Proof.
  intros [_ Hs]. exists (take i text), (drop (length s) (drop i text)).
  by rewrite <- Hs at 1; rewrite take_drop, take_drop.
Qed.

Lemma spaced_chars t ts :
  token t -> Forall token ts ->
  Forall (fun c => is_upper c = true \/ c = " "%char) (spaced t ts).
Proof.
  assert (Htok : forall t', token t' ->
    Forall (fun c => is_upper c = true \/ c = " "%char) t').
  { intros t' [_ Hup]. rewrite forallb_forall in Hup.
    apply Forall_forall. intros c Hc. left. by apply Hup, list_elem_of_In. }
  intros Ht Hts. unfold spaced. apply Forall_app. split; [by apply Htok|].
  induction Hts as [|t' ts Ht' _ IH]; simpl; [done|].
  constructor; [by right|]. apply Forall_app. split; [by apply Htok | done].
Qed.

Lemma findall_sound lo text m :
  m ∈ re_findall (code_pattern lo) text ->
  occurs_in m text /\
  exists t ts, token t /\ Forall token ts /\ lo <= length ts /\ m = spaced t ts.
Proof.
  unfold re_findall. intros Hm. apply list_elem_of_fmap in Hm as [[s e] [-> Hse]].
  apply finditer_sound in Hse as (_ & _ & t & ts & Ht & Hts & Hlen & Hr).
  cbn [fst snd]. rewrite (reads_slice _ _ _ _ Hr).
  split; [by eapply reads_occurs|]. by exists t, ts.
Qed.


Lemma no_indicator text :
  ~ occurs_in (py "attendance code") (lower text) ->
  ~ occurs_in (py "clicker question") (lower text) ->
  re_search indicator_pattern (lower text) = false.
Proof.
  intros H1 H2. apply not_true_iff_false. rewrite indicator_spec. tauto.
Qed.

Lemma video_frame_without_codes w time_str file img text results :
  recognize_video text = [] ->
  video_frame_codes w time_str file img text results = inr results.
Proof. intros H. unfold video_frame_codes. by rewrite H. Qed.


Lemma recognize_fallback_no_matches text c :
  recognize_thumbnail text = inr (FallbackCode c) ->
  filter_matches (re_findall thumbnail_code_pattern text) = [].
Proof.
  unfold recognize_thumbnail. destruct (re_search _ _); [|done].
  case_bool_decide as Hf; [done|]. intros _.
  by destruct (filter_matches _).
Qed.


Lemma first_code_line_cases lines :
  first_code_line lines = NoCode \/ exists c, first_code_line lines = FallbackCode c.
Proof.
  induction lines as [|line lines IH]; simpl; [by left|].
  destruct (code_line line); [right; by eexists | done].
Qed.

Lemma add_codes_elem found codes c :
  c ∈ add_codes found codes <-> c ∈ found \/ c ∈ codes.
Proof.
  unfold add_codes. revert found. induction codes as [|x codes IH]; intros found; simpl.
  - rewrite elem_of_nil. tauto.
  - rewrite IH, elem_of_union, elem_of_singleton, elem_of_cons. tauto.
Qed.

(** C3. For a text that contains "attendance code" in any case and has a
    match of the primary pattern whose lower-case form contains none of
    "http", "www", "join", "com", the recognition of a thumbnail returns the
    primary-pattern matches without those whose lower-case form contains one
    of these four substrings: a match is returned exactly when it is a
    primary-pattern match and contains none of them. Each returned match
    stands in the text as it is returned and consists of capitals and spaces;
    when no match contains one of the four substrings, all matches are
    returned. *)
Theorem attendance_code_matches_are_returned (text : str) :
  occurs_in (py "attendance code") (lower text) ->
  (exists m, m ∈ re_findall thumbnail_code_pattern text /\
     forall url_term, url_term ∈ url_terms -> ~ occurs_in url_term (lower m)) ->
  exists filtered_matches,
    recognize_thumbnail text = inr (Matches filtered_matches) /\
    filtered_matches = List.filter not_url (re_findall thumbnail_code_pattern text) /\
    (forall m, m ∈ filtered_matches <->
       m ∈ re_findall thumbnail_code_pattern text /\
       forall url_term, url_term ∈ url_terms -> ~ occurs_in url_term (lower m)) /\
    (forall m, m ∈ filtered_matches ->
       occurs_in m text /\ Forall (fun c => is_upper c = true \/ c = " "%char) m) /\
    ((forall m url_term, m ∈ re_findall thumbnail_code_pattern text ->
        url_term ∈ url_terms -> ~ occurs_in url_term (lower m)) ->
     filtered_matches = re_findall thumbnail_code_pattern text).
Proof.
  intros Hind [m0 Hm0].
  exists (filter_matches (re_findall thumbnail_code_pattern text)).
  split; [|split; [done|split; [|split]]].
  - unfold recognize_thumbnail.
    rewrite (proj2 (indicator_spec _)) by by left.
    rewrite bool_decide_eq_true_2; [done|].
    apply elem_of_filter_matches in Hm0. intros Hnil. rewrite Hnil in Hm0.
    by apply elem_of_nil in Hm0.
  - intros m. apply elem_of_filter_matches.
  - intros m Hm. apply elem_of_filter_matches in Hm as [Hm _].
    apply findall_sound in Hm as (Hocc & t & ts & Ht & Hts & _ & ->).
    split; [done | by apply spaced_chars].
  - apply filter_matches_all.
Qed.

Lemma attendance_code_matches_are_returned_witness :
  occurs_in (py "attendance code") (lower two_codes_text) /\
  re_findall thumbnail_code_pattern two_codes_text =
    [py "ABCD EFGH"; py "WXYZ"; py "WWW"] /\
  recognize_thumbnail two_codes_text = inr (Matches [py "ABCD EFGH"; py "WXYZ"]).
Proof.
  assert (H1 : occurs_in (py "attendance code") (lower two_codes_text)).
  { exists [], (drop 15 (lower two_codes_text)). vm_compute. reflexivity. }
  assert (H2 : re_findall thumbnail_code_pattern two_codes_text =
               [py "ABCD EFGH"; py "WXYZ"; py "WWW"]).
  { vm_compute. reflexivity. }
  split; [exact H1|]. split; [exact H2|].
  destruct (attendance_code_matches_are_returned two_codes_text H1)
    as (filtered_matches & Hr & Hf & _).
  - exists (py "WXYZ"). split.
    + rewrite H2. apply list_elem_of_further, list_elem_of_here.
    + intros url_term Hterm Hocc. apply str_in_spec in Hocc.
      unfold url_terms in Hterm. rewrite !elem_of_cons, elem_of_nil in Hterm.
      destruct Hterm as [->|[->|[->|[->|[]]]]]; vm_compute in Hocc; discriminate Hocc.
  - rewrite Hr, Hf, H2. vm_compute. reflexivity.
Defined.

(** C5, as the code has it. One recognition pass returns one entry for each
    surviving match, in the order of the text, so that a code shown several
    times is returned several times; a code is there once only in the set
    [found_codes] to which the codes of the frame are added. *)
Theorem codes_are_deduplicated_in_found_codes (text : str) (found_codes : gset str) :
  (forall filtered_matches, recognize_thumbnail text = inr (Matches filtered_matches) ->
     filtered_matches =
       filter_matches (map (fun se => slice text se.1 se.2)
                           (re_finditer thumbnail_code_pattern text))) /\
  (forall r, recognize_thumbnail text = inr r ->
     NoDup (elements (add_codes found_codes (codes_of r))) /\
     forall c, c ∈ elements (add_codes found_codes (codes_of r)) <->
               c ∈ found_codes \/ c ∈ codes_of r) /\
  NoDup (elements (add_codes found_codes (recognize_video text))) /\
  (forall c, c ∈ elements (add_codes found_codes (recognize_video text)) <->
             c ∈ found_codes \/ c ∈ recognize_video text).
Proof.
  split; [|split; [|split]].
  - unfold recognize_thumbnail. intros ms. destruct (re_search _ _); [|done].
    case_bool_decide; [by intros [= <-]|].
    destruct (str_in _ _); [|done].
    destruct (index _ _) as [e|after_prompt]; [done|].
    cbn [mbind res_bind mret res_ret]. intros [= Hfirst].
    by destruct (first_code_line_cases (take 5 (split newline after_prompt)))
      as [Hc|[c Hc]]; rewrite Hc in Hfirst.
  - intros r _. split; [apply NoDup_elements|].
    intros c. by rewrite elem_of_elements, add_codes_elem.
  - apply NoDup_elements.
  - intros c. by rewrite elem_of_elements, add_codes_elem.
Qed.

Lemma codes_are_deduplicated_in_found_codes_witness :
  recognize_thumbnail repeated_code_text = inr (Matches [py "ABCD"; py "ABCD"]) /\
  elements (add_codes ∅ [py "ABCD"; py "ABCD"]) = [py "ABCD"] /\
  NoDup (elements (add_codes ∅ (codes_of (Matches [py "ABCD"; py "ABCD"])))).
Proof.
  assert (H : recognize_thumbnail repeated_code_text = inr (Matches [py "ABCD"; py "ABCD"])).
  { vm_compute. reflexivity. }
  split; [exact H|]. split; [vm_compute; reflexivity|].
  destruct (codes_are_deduplicated_in_found_codes repeated_code_text ∅) as (_ & Hadd & _).
  exact (proj1 (Hadd _ H)).
Defined.

(** C5 as stated fails: on a slide that shows ABCD twice the pass returns
    the code twice. *)
Lemma repeated_code_is_returned_twice :
  recognize_thumbnail repeated_code_text = inr (Matches [py "ABCD"; py "ABCD"]) /\
  ~ NoDup (codes_of (Matches [py "ABCD"; py "ABCD"])).
Proof.
  split; [vm_compute; reflexivity|].
  cbn [codes_of]. rewrite NoDup_cons. intros [Hnotin _]. apply Hnotin, list_elem_of_here.
Qed.

(** C6. A text that contains neither "attendance code" nor "clicker
    question" in any case yields no code in either phase: the recognition of
    a thumbnail finds nothing and the task returns [None] without raising;
    the recognition of a video frame finds nothing and the frame leaves
    [video_scan_results] as it was, without raising. *)
Theorem no_indicator_no_codes (text : str) :
  ~ occurs_in (py "attendance code") (lower text) ->
  ~ occurs_in (py "clicker question") (lower text) ->
  recognize_thumbnail text = inr NoCode /\
  recognize_video text = [] /\
  (forall w timestamp filename img,
     recognize_thumbnail text ≫= archive_thumbnail w timestamp filename img = inr None) /\
  (forall w time_str screenshot_file img video_scan_results,
     video_frame_codes w time_str screenshot_file img text video_scan_results =
       inr video_scan_results).
Proof.
  intros H1 H2. pose proof (no_indicator text H1 H2) as Hno.
  assert (Ht : recognize_thumbnail text = inr NoCode).
  { unfold recognize_thumbnail. by rewrite Hno. }
  assert (Hv : recognize_video text = []).
  { unfold recognize_video. by rewrite Hno. }
  split; [done|]. split; [done|]. split.
  - intros. by rewrite Ht.
  - intros. by apply video_frame_without_codes.
Qed.

Lemma no_indicator_no_codes_witness :
  recognize_thumbnail (py "~~ l0rem 1psum ~~") = inr NoCode /\
  recognize_video (py "~~ l0rem 1psum ~~") = [] /\
  recognize_thumbnail [] = inr NoCode /\
  recognize_video [] = [].
Proof.
  assert (Hno : forall sub text, str_in sub (lower text) = false ->
                                 ~ occurs_in sub (lower text)).
  { intros sub text Hf Hocc. apply str_in_spec in Hocc. congruence. }
  destruct (no_indicator_no_codes (py "~~ l0rem 1psum ~~")) as (H1 & H2 & _);
    [apply Hno; vm_compute; reflexivity | apply Hno; vm_compute; reflexivity |].
  destruct (no_indicator_no_codes []) as (H3 & H4 & _);
    [apply Hno; vm_compute; reflexivity | apply Hno; vm_compute; reflexivity |].
  repeat split; assumption.
Defined.

(** C10. The video phase has no fallback. Every code of a video frame is a
    match of the video pattern, two or more capital tokens, and never a line
    taken after the prompt. A frame in which no match of the video pattern
    survives the filter yields no code and leaves [video_scan_results] as it
    was, whatever else its text contains: the indicator, the prompt, a code
    line under it. This is so whenever no match of the thumbnail pattern
    survives, and so whenever the recognition of a thumbnail takes the
    fallback on that text. *)
Theorem video_frames_have_no_fallback (text : str) :
  (forall m, m ∈ recognize_video text ->
     m ∈ re_findall video_code_pattern text /\
     exists t ts, token t /\ Forall token ts /\ 1 <= length ts /\ m = spaced t ts) /\
  ((filter_matches (re_findall video_code_pattern text) = [] \/
    filter_matches (re_findall thumbnail_code_pattern text) = [] \/
    exists c, recognize_thumbnail text = inr (FallbackCode c)) ->
   recognize_video text = [] /\
   forall w time_str screenshot_file img video_scan_results,
     video_frame_codes w time_str screenshot_file img text video_scan_results =
       inr video_scan_results).
Proof.
  split.
  - unfold recognize_video. intros m. destruct (re_search _ _); [|by rewrite elem_of_nil].
    intros Hm. apply elem_of_filter_matches in Hm as [Hm _]. split; [done|].
    apply findall_sound in Hm as (_ & t & ts & Ht & Hts & Hlen & ->). by exists t, ts.
  - intros H.
    assert (Hv : filter_matches (re_findall video_code_pattern text) = []).
    { destruct H as [H|[H|[c H]]]; [done| |apply recognize_fallback_no_matches in H];
        apply sublist_nil_r; rewrite <- H; apply video_matches_sublist. }
    assert (Hr : recognize_video text = []).
    { unfold recognize_video. rewrite Hv. by destruct (re_search _ _). }
    split; [done|]. intros. by apply video_frame_without_codes.
Qed.

Lemma video_frames_have_no_fallback_witness :
  recognize_thumbnail fallback_text = inr (FallbackCode (py "WELCOME HOME")) /\
  occurs_in (py "attendance code") (lower fallback_text) /\
  occurs_in prompt fallback_text /\
  recognize_video fallback_text = [].
Proof.
  assert (H : recognize_thumbnail fallback_text = inr (FallbackCode (py "WELCOME HOME"))).
  { vm_compute. reflexivity. }
  split; [exact H|]. split; [|split].
  - exists (py "insert the following "), (drop 36 (lower fallback_text)).
    vm_compute. reflexivity.
  - exists [], (drop 36 fallback_text). vm_compute. reflexivity.
  - apply (video_frames_have_no_fallback fallback_text).
    right. right. exists (py "WELCOME HOME"). exact H.
Defined.

(** ** [str.split] *)

Lemma split_aux_skip sep cur t s :
  split_aux sep cur (length t) (t ++ s) = split_aux sep cur 0 s.
Proof. induction t as [|c t IH]; [done|]. by cbn [length app split_aux]. Qed.

Lemma startswith_refl sep rest : startswith sep (sep ++ rest) = true.
Proof. apply startswith_spec. by exists rest. Qed.

Lemma split_aux_here sep cur rest :
  sep <> [] ->
  split_aux sep cur 0 (sep ++ rest) = rev cur :: split_aux sep [] 0 rest.
Proof.
  destruct sep as [|c sep']; [done|]. intros _.
  change ((c :: sep') ++ rest) with (c :: (sep' ++ rest)).
  cbn [split_aux].
  change (c :: (sep' ++ rest)) with ((c :: sep') ++ rest).
  rewrite startswith_refl. cbn [length]. rewrite Nat.sub_succ, Nat.sub_0_r.
  by rewrite split_aux_skip.
Qed.

Lemma split_aux_first sep cur a rest :
  sep <> [] -> absent_before sep (a ++ sep ++ rest) (length a) ->
  split_aux sep cur 0 (a ++ sep ++ rest) = (rev cur ++ a) :: split_aux sep [] 0 rest.
Proof.
  intros Hsep. revert cur. induction a as [|c a IH]; intros cur Habs.
  - rewrite app_nil_r. cbn [app]. by apply split_aux_here.
  - cbn [app split_aux]. pose proof (Habs 0 ltac:(simpl; lia)) as H0.
    cbn [drop app] in H0. rewrite H0. rewrite IH.
    + cbn [rev]. by rewrite <- app_assoc.
    + intros k Hk. apply (Habs (S k)). simpl. lia.
Qed.

Lemma split_aux_none sep cur s :
  absent_before sep s (length s) -> split_aux sep cur 0 s = [rev cur ++ s].
Proof.
  revert cur. induction s as [|c s IH]; intros cur Habs.
  - by rewrite app_nil_r.
  - cbn [split_aux]. pose proof (Habs 0 ltac:(simpl; lia)) as H0.
    cbn [drop] in H0. rewrite H0, IH.
    + cbn [rev]. by rewrite <- app_assoc.
    + intros k Hk. apply (Habs (S k)). simpl. lia.
Qed.

Lemma first_occurrence sep s :
  occurs_in sep s ->
  exists a rest, s = a ++ sep ++ rest /\ absent_before sep s (length a).
Proof.
  rewrite <- str_in_spec. induction s as [|c s IH]; simpl.
  - rewrite orb_false_r. intros H. apply startswith_spec in H as [rest ->].
    exists [], rest. split; [done|]. intros k Hk. simpl in Hk. lia.
  - destruct (startswith sep (c :: s)) eqn:Hs.
    + intros _. apply startswith_spec in Hs as [rest ->].
      exists [], rest. split; [done|]. intros k Hk. simpl in Hk. lia.
    + simpl. intros H. destruct (IH H) as (a & rest & -> & Habs).
      exists (c :: a), rest. split; [done|].
      intros [|k] Hk; [done|]. apply Habs. simpl in Hk. lia.
Qed.

Lemma absent_everywhere sep s :
  str_in sep s = false -> absent_before sep s (length s).
Proof.
  intros Hno k Hk. apply not_true_iff_false. intros Hs.
  assert (str_in sep s = true); [|congruence].
  apply str_in_spec, occurs_in_drop. exists k. split; [lia|done].
Qed.

(** The second piece of [s.split(sep)], when [sep] occurs in [s]: what
    stands between the first occurrence and the next one after it. *)
Lemma split_second sep s :
  sep <> [] -> occurs_in sep s ->
  exists a b rest,
    s = a ++ sep ++ b ++ rest /\
    absent_before sep s (length a) /\
    (rest = [] \/ startswith sep rest = true) /\
    absent_before sep (b ++ rest) (length b) /\
    split sep s !! 1 = Some b.
Proof.
  intros Hsep Hocc. destruct (first_occurrence sep s Hocc) as (a & tl & -> & Ha).
  unfold split. rewrite (split_aux_first sep [] a tl Hsep Ha).
  cbn [lookup list_lookup].
  destruct (str_in sep tl) eqn:Htl.
  - apply str_in_spec in Htl.
    destruct (first_occurrence sep tl Htl) as (b & rest & -> & Hb).
    exists a, b, (sep ++ rest). split; [done|]. split; [done|].
    split; [right; apply startswith_refl|]. split; [done|].
    by rewrite (split_aux_first sep [] b rest Hsep Hb).
  - exists a, tl, []. rewrite app_nil_r. split; [done|]. split; [done|].
    split; [by left|]. pose proof (absent_everywhere sep tl Htl) as Hab.
    split; [done|]. by rewrite (split_aux_none sep [] tl Hab).
Qed.

(** ** The pattern of line 94 *)

Lemma span_len_all p s : span_len p s = length s <-> forallb p s = true.
Proof.
  induction s as [|c s IH]; simpl; [done|].
  destruct (p c); simpl; [|split; [lia|done]]. rewrite <- IH. lia.
Qed.

Lemma span_len_stop p s c : s !! span_len p s = Some c -> p c = false.
Proof.
  induction s as [|c' s IH]; simpl; [done|].
  destruct (p c') eqn:Hc'; simpl; [done|]. by intros [= <-].
Qed.

Lemma line_pattern_spec s : re_match line_pattern s = letters_and_spaces s.
Proof.
  unfold re_match, match_at, line_pattern, letters_and_spaces.
  set (cls := fun c => is_upper c || is_space c).
  change (ends (Seq Bos ?r) s 0) with (flat_map (ends r s) [0]).
  cbn [flat_map]. rewrite app_nil_r.
  change (ends (Seq ?r1 ?r2) s 0) with (flat_map (ends r2 s) (ends r1 s 0)).
  rewrite ends_rep_chr. change (drop 0 s) with s.
  pose proof (span_len_le cls s) as Hle.
  apply eq_true_iff_eq. rewrite bool_decide_eq_true, andb_true_iff, negb_true_iff.
  rewrite bool_decide_eq_false, <- span_len_all.
  set (n := span_len cls s) in *. split.
  - intros [e He]. apply head_elem, elem_of_flat_map in He as [k [Hk He]].
    apply list_elem_of_fmap in Hk as [k' [-> Hk']]. apply elem_of_downto in Hk'.
    cbn [Nat.add] in He. cbn [ends] in He.
    destruct (Nat.eqb_spec k' (length s)) as [Heq|Hne].
    + split; [|lia]. intros ->. simpl in *. lia.
    + cbn [orb] in He. destruct (Nat.eqb_spec (S k') (length s)) as [Heq|];
        [|by apply elem_of_nil in He].
      cbn [andb] in He. case_bool_decide as Hnl; [|by apply elem_of_nil in He].
      destruct (decide (n = length s)) as [Hn|Hn];
        [split; [intros ->; simpl in *; lia | done]|].
      assert (k' = n) as -> by lia.
      apply span_len_stop in Hnl. by vm_compute in Hnl.
  - intros [Hne Hn]. destruct s as [|c s']; [done|].
    destruct (downto_cons n 1) as [tl [-> _]]; [rewrite Hn; simpl; lia|].
    cbn [map flat_map Nat.add]. cbn [ends]. rewrite Hn, Nat.eqb_refl. by eexists.
Qed.

Lemma elem_of_rev {A} (x : A) (l : list A) : x ∈ rev l <-> x ∈ l.
Proof. rewrite !list_elem_of_In. symmetry. apply in_rev. Qed.

Lemma split_newline_aux cur s :
  exists line lines,
    split_aux newline cur 0 s = line :: lines /\
    join_lines (line :: lines) = rev cur ++ s /\
    ("010"%char ∉ cur -> Forall (fun l => "010"%char ∉ l) (line :: lines)).
Proof.
  unfold newline. revert cur. induction s as [|c s IH]; intros cur.
  - exists (rev cur), []. split; [done|]. split; [done|].
    intros Hcur. constructor; [|done]. by rewrite elem_of_rev.
  - cbn [split_aux startswith length]. rewrite andb_true_r, Nat.sub_diag.
    destruct (Ascii.eqb_spec "010" c) as [<-|Hc].
    + destruct (IH []) as (line & lines & -> & Hjoin & Hnl).
      exists (rev cur), (line :: lines). split; [done|]. split.
      * change (rev [] ++ s) with s in Hjoin. by rewrite <- Hjoin.
      * intros Hcur. constructor; [by rewrite elem_of_rev|].
        apply Hnl, not_elem_of_nil.
    + destruct (IH (c :: cur)) as (line & lines & -> & Hjoin & Hnl).
      exists line, lines. split; [done|]. split.
      * rewrite Hjoin. cbn [rev]. by rewrite <- app_assoc.
      * intros Hcur. apply Hnl. rewrite elem_of_cons. intros [?|?]; [by apply Hc | by apply Hcur].
Qed.

Lemma split_newline s :
  join_lines (split newline s) = s /\
  Forall (fun l => "010"%char ∉ l) (split newline s).
Proof.
  unfold split. destruct (split_newline_aux [] s) as (line & lines & -> & Hjoin & Hnl).
  split; [done|]. apply Hnl, not_elem_of_nil.
Qed.

Lemma occurs_in_trans a b c : occurs_in a b -> occurs_in b c -> occurs_in a c.
Proof.
  intros (a1 & a2 & ->) (b1 & b2 & ->). exists (b1 ++ a1), (a2 ++ b2).
  by rewrite <- !app_assoc.
Qed.

Lemma prompt_has_indicator text :
  occurs_in prompt text -> re_search indicator_pattern (lower text) = true.
Proof.
  intros H. apply re_search_lit2. left.
  apply (occurs_in_trans _ (lower prompt)); [|by apply occurs_in_lower].
  apply str_in_spec. by vm_compute.
Qed.

Lemma first_code_line_find lines :
  first_code_line lines =
    match List.find (fun line => letters_and_spaces (strip line) && (3 <? length (strip line)))
                    lines with
    | Some line => FallbackCode (strip line)
    | None => NoCode
    end.
Proof.
  induction lines as [|line lines IH]; simpl; [done|].
  unfold code_line at 1. rewrite line_pattern_spec. by destruct (_ && _).
Qed.

(** What the fallback reads: the text between the first occurrence of the
    prompt and the next one (or the end of the text), cut into lines, of
    which the first five are tried in turn. *)
Lemma fallback_reads_five_lines (text : str) :
  filter_matches (re_findall thumbnail_code_pattern text) = [] ->
  occurs_in prompt text ->
  exists before after_prompt rest lines,
    text = before ++ prompt ++ after_prompt ++ rest /\
    absent_before prompt text (length before) /\
    (rest = [] \/ startswith prompt rest = true) /\
    absent_before prompt (after_prompt ++ rest) (length after_prompt) /\
    join_lines lines = after_prompt /\
    Forall (fun line => "010"%char ∉ line) lines /\
    recognize_thumbnail text =
      inr (match List.find
                   (fun line => letters_and_spaces (strip line) && (3 <? length (strip line)))
                   (take 5 lines) with
           | Some line => FallbackCode (strip line)
           | None => NoCode
           end).
Proof.
  intros Hnone Hocc.
  destruct (split_second prompt text) as (a & b & rest & Htext & Ha & Hrest & Hb & Hsplit);
    [done|done|].
  destruct (split_newline b) as [Hjoin Hlines].
  exists a, b, rest, (split newline b). repeat (split; [done|]).
  unfold recognize_thumbnail. rewrite (prompt_has_indicator text Hocc), Hnone.
  rewrite bool_decide_eq_false_2 by (intros H; by apply H).
  rewrite (proj2 (str_in_spec prompt text) Hocc).
  unfold index. rewrite Hsplit. cbn [mret res_ret mbind res_bind].
  by rewrite first_code_line_find.
Qed.

Lemma after_first_spec sep a tl :
  absent_before sep (a ++ sep ++ tl) (length a) ->
  after_first sep (a ++ sep ++ tl) = Some tl.
Proof.
  induction a as [|c a IH]; intros Habs.
  - cbn [app]. destruct (sep ++ tl) as [|c s] eqn:Hs.
    + destruct sep; [|done]. simpl in Hs. by subst.
    + cbn [after_first]. rewrite <- Hs, startswith_refl. by rewrite drop_app_length.
  - cbn [app after_first]. pose proof (Habs 0 ltac:(simpl; lia)) as H0.
    cbn [drop app] in H0. rewrite H0. apply IH.
    intros k Hk. apply (Habs (S k)). simpl. lia.
Qed.

(** Where the prompt occurs once, the code does what the specification says. *)
Lemma fallback_agrees_single_prompt text before tl :
  text = before ++ prompt ++ tl ->
  absent_before prompt text (length before) ->
  str_in prompt tl = false ->
  filter_matches (re_findall thumbnail_code_pattern text) = [] ->
  recognize_thumbnail text = inr (spec_fallback text).
Proof.
  intros -> Hfirst Honce Hnone.
  assert (Hocc : occurs_in prompt (before ++ prompt ++ tl)) by by exists before, tl.
  unfold recognize_thumbnail, spec_fallback.
  rewrite (prompt_has_indicator _ Hocc), Hnone.
  rewrite bool_decide_eq_false_2 by (intros H; by apply H).
  rewrite (proj2 (str_in_spec prompt _) Hocc), (after_first_spec _ _ _ Hfirst).
  unfold split, index. rewrite (split_aux_first prompt [] before tl) by done.
  rewrite (split_aux_none prompt [] tl (absent_everywhere _ _ Honce)).
  cbn [lookup list_lookup mret res_ret mbind res_bind rev app].
  by rewrite first_code_line_find.
Qed.

(** C4 at a text that shows the prompt twice with the code under the second
    one: no primary match survives, the text contains the prompt, and the
    third line after the prompt is letters and spaces only with a trimmed
    length of 7, so that the fallback as specified accepts "A B C D"; the
    code reads [text.split(prompt)[1]], which ends at the second prompt, and
    produces no code. *)
Theorem repeated_prompt_hides_the_code :
  filter_matches (re_findall thumbnail_code_pattern repeated_prompt_text) = [] /\
  after_first prompt repeated_prompt_text =
    Some (newline ++ prompt ++ newline ++ py "A B C D") /\
  spec_fallback repeated_prompt_text = FallbackCode (py "A B C D") /\
  split prompt repeated_prompt_text !! 1 = Some newline /\
  recognize_thumbnail repeated_prompt_text = inr NoCode.
Proof. repeat split; vm_compute; reflexivity. Qed.

(** ** The pool of thumbnail tasks *)

Section Pool.
  Context (task : str * str -> res (option outcome)).

Lemma gather_app l1 l2 results :
  gather task (l1 ++ l2) results = gather task l2 (gather task l1 results).
Proof.
  revert results. induction l1 as [|d l1 IH]; intros results; simpl; [done|].
  destruct (task d) as [e|[o|]]; apply IH.
Qed.

Lemma gather_omap l results :
  gather task l results = results ++ omap (fun d => returned (task d)) l.
Proof.
  revert results. induction l as [|d l IH]; intros results; simpl.
  - by rewrite app_nil_r.
  - destruct (task d) as [e|[o|]]; simpl; rewrite IH; [done| |done].
    by rewrite <- app_assoc.
Qed.

(** The results gathered are the same up to the order of completion. *)
Lemma gather_perm (l1 l2 : list (str * str)) :
  l1 ≡ₚ l2 -> gather task l1 [] ≡ₚ gather task l2 [].
Proof. intros H. rewrite !gather_omap. cbn [app]. by rewrite H. Qed.

End Pool.

(** The task never raises: line 104 catches what the body raises. *)
Lemma download_and_process_image_returns w d :
  exists o, download_and_process_image w d = inr o.
Proof.
  destruct d as [url timestamp]. unfold download_and_process_image, try_except.
  destruct (download_and_process_image_body w url timestamp); eauto.
Qed.

Lemma collect_codes_elem results c :
  c ∈ collect_codes results <-> exists r : outcome, r ∈ results /\ c ∈ r.1.2.
Proof.
  unfold collect_codes.
  assert (H : forall acc : gset str,
    c ∈ foldl (fun s (r : outcome) => add_codes s r.1.2) acc results <->
    c ∈ acc \/ exists r : outcome, r ∈ results /\ c ∈ r.1.2).
  { induction results as [|r results IH]; intros acc; simpl.
    - split; [by left|]. intros [?|[r [Hr _]]]; [done|]. by apply elem_of_nil in Hr.
    - rewrite IH, add_codes_elem. split.
      + intros [[?|?]|[r' [Hr' Hc]]]; [by left| |].
        * right. exists r. split; [apply list_elem_of_here|done].
        * right. exists r'. split; [by apply list_elem_of_further|done].
      + intros [?|[r' [Hr' Hc]]]; [by left; left|].
        apply elem_of_cons in Hr' as [->|Hr']; [by left; right|].
        right. by exists r'. }
  rewrite H. split; [|by right]. intros [Hc|?]; [|done].
  by apply not_elem_of_empty in Hc.
Qed.

(** The codes collected do not depend on the order of the results. *)
Lemma collect_codes_perm (results1 results2 : list outcome) :
  results1 ≡ₚ results2 -> collect_codes results1 = collect_codes results2.
Proof.
  intros Hperm. apply set_eq. intros c. rewrite !collect_codes_elem.
  split; intros [r [Hr Hc]]; exists r; (split; [|done]).
  - by rewrite <- Hperm.
  - by rewrite Hperm.
Qed.

(** The codes the thumbnails leave do not depend on the order in which the
    futures complete. *)
Lemma thumbnail_found_codes_order (w : world) :
  as_completed w (image_urls w) ≡ₚ image_urls w -> image_urls w <> [] ->
  thumbnail_found_codes w =
    Some (collect_codes (gather (download_and_process_image w) (image_urls w) [])).
Proof.
  intros Hperm Hne. unfold thumbnail_found_codes.
  rewrite bool_decide_eq_true_2 by done. f_equal.
  by apply collect_codes_perm, gather_perm.
Qed.

(** C8. When the task of one descriptor of a batch fails, whatever its body
    raises (a download that fails, an image that cannot be decoded, OCR that
    fails), the task returns [None] and nothing is raised into the loop over
    the completed futures. In whatever order the futures complete, the
    results gathered are the outcomes of the other descriptors, each of them
    once, and the codes collected from them are the codes of the batch
    without the failing descriptor; in the order of submission the results
    are the same list. *)
Theorem one_failure_does_not_stop_the_pool (w : world)
    (before after completed : list (str * str)) (url timestamp : str) (e : exn) :
  download_and_process_image_body w url timestamp = inl e ->
  completed ≡ₚ before ++ (url, timestamp) :: after ->
  download_and_process_image w (url, timestamp) = inr None /\
  gather (download_and_process_image w) (before ++ (url, timestamp) :: after) [] =
    gather (download_and_process_image w) (before ++ after) [] /\
  gather (download_and_process_image w) completed [] ≡ₚ
    omap (fun d => returned (download_and_process_image w d)) (before ++ after) /\
  collect_codes (gather (download_and_process_image w) completed []) =
    collect_codes (gather (download_and_process_image w) (before ++ after) []).
Proof.
  intros Hfail Hperm.
  assert (Hnone : download_and_process_image w (url, timestamp) = inr None).
  { unfold download_and_process_image, try_except. by rewrite Hfail. }
  assert (Hsame :
    gather (download_and_process_image w) (before ++ (url, timestamp) :: after) [] =
    gather (download_and_process_image w) (before ++ after) []).
  { rewrite !gather_app. cbn [gather]. by rewrite Hnone. }
  split; [done|]. split; [done|]. split.
  - rewrite (gather_perm _ _ _ Hperm), Hsame. by rewrite gather_omap.
  - rewrite <- Hsame. apply collect_codes_perm, gather_perm, Hperm.
Qed.

Lemma one_failure_does_not_stop_the_pool_witness :
  download_and_process_image_body failing_fetch_world
    (py "https://host/t2.jpg") (py "1:00") = inl RequestException /\
  collect_codes
    (gather (download_and_process_image failing_fetch_world)
            (rev (image_urls failing_fetch_world)) []) =
  collect_codes
    (gather (download_and_process_image failing_fetch_world)
            [(py "https://host/t0.jpg", py "0:00");
             (py "https://host/t1.jpg", py "0:30");
             (py "https://host/t3.jpg", py "1:30")] []).
Proof.
  assert (H : download_and_process_image_body failing_fetch_world
                (py "https://host/t2.jpg") (py "1:00") = inl RequestException).
  { vm_compute. reflexivity. }
  split; [exact H|].
  refine (proj2 (proj2 (proj2
    (one_failure_does_not_stop_the_pool failing_fetch_world
       [(py "https://host/t0.jpg", py "0:00"); (py "https://host/t1.jpg", py "0:30")]
       [(py "https://host/t3.jpg", py "1:30")]
       (rev (image_urls failing_fetch_world))
       (py "https://host/t2.jpg") (py "1:00") RequestException H _)))).
  symmetry. apply Permutation_rev.
Defined.

(** ** The two phases *)

Lemma video_phase_returns w fc b l b' :
  video_phase w fc b = (inr l, b') -> l = [] \/ exists s : gset str, l = elements s.
Proof.
  unfold video_phase, mbind, M_bind, lift.
  destruct (find_video_player w b) as [[e|found] b1]; [done|].
  destruct found; cbn [negb]; [|intros [= <- _]; by left].
  destruct (video_scan w (timestamps w) [] b1) as [[e|rs] b2]; [done|].
  destruct (merge_video_results fc rs) as [e|fc']; [done|].
  destruct (read_found_codes fc') as [e|s]; [done|].
  intros [= <- _]. right. by exists s.
Qed.

Lemma add_video_codes_unbound codes fc :
  add_video_codes None codes = inr fc -> fc = None.
Proof. destruct codes; [by intros [= <-] | done]. Qed.

Lemma merge_video_results_unbound rs fc :
  merge_video_results None rs = inr fc -> fc = None.
Proof.
  induction rs as [|r rs IH]; simpl; [by intros [= <-]|].
  destruct (add_video_codes None r.1.2) as [e|fc'] eqn:Hadd; [done|].
  apply add_video_codes_unbound in Hadd as ->. apply IH.
Qed.

(** Without thumbnails [found_codes] stays unbound: the run returns the
    empty list (no player, line 236) or raises, and never returns a code. *)
Lemma no_thumbnails_no_codes (w : world) (b : browser) (codes : list str) :
  image_urls w = [] -> (extract_attendance_codes w b).1 = inr codes -> codes = [].
Proof.
  intros Hno. unfold extract_attendance_codes, try_finally, log, thumbnail_found_codes.
  rewrite Hno. rewrite bool_decide_eq_false_2 by (intros H; by apply H).
  unfold video_phase, mbind, M_bind, lift.
  destruct (find_video_player w b) as [[e|found] b1]; [done|].
  destruct found; cbn [negb]; [|by intros [= <-]].
  destruct (video_scan w (timestamps w) [] b1) as [[e|rs] b2]; [done|].
  destruct (merge_video_results None rs) as [e|fc'] eqn:Hm; [done|].
  by apply merge_video_results_unbound in Hm as ->.
Qed.

Lemma merge_video_results_unbound_cases rs :
  merge_video_results None rs = inl UnboundLocalError \/
  merge_video_results None rs = inr None.
Proof.
  induction rs as [|r rs IH]; simpl; [by right|].
  destruct (r.1.2) as [|c codes]; simpl; [done | by left].
Qed.

(** Without thumbnails, a run that finds the video and scans it to the end
    raises [UnboundLocalError], whatever the scan found. *)
Lemma no_thumbnails_run_raises (w : world) (b b1 b2 : browser) (rs : list outcome) :
  image_urls w = [] ->
  find_video_player w b = (inr true, b1) ->
  video_scan w (timestamps w) [] b1 = (inr rs, b2) ->
  (extract_attendance_codes w b).1 = inl UnboundLocalError.
Proof.
  intros Hno Hfind Hscan.
  unfold extract_attendance_codes, try_finally, log, thumbnail_found_codes.
  rewrite Hno. rewrite bool_decide_eq_false_2 by (intros H; by apply H).
  unfold video_phase, mbind, M_bind, lift. rewrite Hfind. cbn [negb]. rewrite Hscan.
  by destruct (merge_video_results_unbound_cases rs) as [-> | ->].
Qed.

(** C1 at the scenario of the claim: no thumbnail, a video element, two
    navigation points of which the second shows "clicker question ... QRST
    UVWX". The scan of the video finds the code, and the run then raises
    [UnboundLocalError] on reading [found_codes] (line 286) instead of
    returning it. *)
Theorem video_only_run_raises :
  image_urls video_only_world = [] /\
  video_element video_only_world = true /\
  (video_scan video_only_world (timestamps video_only_world) [] fresh).1 =
    inr [(py "1:30", [py "QRST UVWX"], py "video_frames/frame_1_30.png")] /\
  extract_attendance_codes video_only_world fresh =
    (inl UnboundLocalError,
     Browser 90 [WaitPlayer; FindVideo; Seek 0; Screenshot 0; VideoOcr;
                 Seek 90; Screenshot 90; VideoOcr; Quit]).
Proof. repeat split; vm_compute; reflexivity. Qed.

(** C7. When the thumbnails leave at least one code in [found_codes], the
    run returns the codes of that set, which are not none, and the browser
    is asked nothing but to quit: no player is looked for, no seek, no
    screenshot, no OCR of a video frame. *)
Theorem thumbnail_codes_end_the_run (w : world) (s : gset str) (b : browser) :
  thumbnail_found_codes w = Some s -> s <> ∅ ->
  extract_attendance_codes w b =
    (inr (elements s), Browser (currentTime b) (events b ++ [Quit])) /\
  elements s <> [].
Proof.
  intros Hs Hne. split.
  - unfold extract_attendance_codes, try_finally. rewrite Hs.
    by rewrite bool_decide_eq_true_2.
  - intros H. by apply elements_empty_inv, leibniz_equiv in H.
Qed.

Lemma thumbnail_codes_end_the_run_witness :
  thumbnail_found_codes thumbnail_world = Some {[py "ABCD EFGH"; py "WXYZ"]} /\
  extract_attendance_codes thumbnail_world fresh =
    (inr (elements ({[py "ABCD EFGH"; py "WXYZ"]} : gset str)), Browser 0 [Quit]).
Proof.
  assert (H : thumbnail_found_codes thumbnail_world = Some {[py "ABCD EFGH"; py "WXYZ"]}).
  { vm_compute. reflexivity. }
  split; [exact H|].
  apply (thumbnail_codes_end_the_run thumbnail_world _ fresh H).
  intros Hempty. vm_compute in Hempty. discriminate Hempty.
Defined.

(** C9. Whatever the run returns, no code is in it twice. *)
Theorem result_has_no_duplicates (w : world) (b : browser) (codes : list str) :
  (extract_attendance_codes w b).1 = inr codes -> NoDup codes.
Proof.
  unfold extract_attendance_codes, try_finally, log.
  set (body := match thumbnail_found_codes w with Some s => _ | None => _ end).
  destruct (body b) as [r b'] eqn:Hbody. cbn. intros ->.
  assert (codes = [] \/ exists s : gset str, codes = elements s) as [->|[s ->]].
  { subst body. destruct (thumbnail_found_codes w) as [s|].
    - case_bool_decide.
      + injection Hbody as <- _. right. by exists s.
      + by eapply video_phase_returns.
    - by eapply video_phase_returns. }
  - constructor.
  - apply NoDup_elements.
Qed.

Lemma result_has_no_duplicates_witness :
  (extract_attendance_codes blank_thumbnail_world fresh).1 = inr [py "QRST UVWX"] /\
  NoDup [py "QRST UVWX"].
Proof.
  assert (H : (extract_attendance_codes blank_thumbnail_world fresh).1
              = inr [py "QRST UVWX"]) by (vm_compute; reflexivity).
  split; [exact H|].
  exact (result_has_no_duplicates blank_thumbnail_world fresh _ H).
Defined.

(** * The catalogue of the page *)

(** ** The catalogue read from the page *)

(** Induction on a page: a property of the children carries to the tag. *)
Lemma node_ind (P : node -> Prop) :
  (forall s, P (NavigableString s)) ->
  (forall name classes attrs contents,
     Forall P contents -> P (Tag name classes attrs contents)) ->
  forall n, P n.
Proof.
  intros Hs Ht. fix go 1. intros [s|name classes attrs contents]; [apply Hs|].
  apply Ht. induction contents as [|c contents IH]; constructor; [apply go | apply IH].
Qed.

Lemma elem_of_List_filter {A} (f : A -> bool) (l : list A) (x : A) :
  x ∈ List.filter f l <-> x ∈ l /\ f x = true.
Proof. by rewrite !list_elem_of_In, filter_In. Qed.

(** The parent of an element below [n] is [n] or an element below [n]. *)
Lemma family_parent n p c :
  (p, c) ∈ family n -> p = n \/ p ∈ descendants n.
Proof.
  revert p c. induction n as [s|name classes attrs contents IH] using node_ind;
    intros p c; simpl; [by rewrite elem_of_nil|].
  rewrite elem_of_flat_map. intros (child & Hchild & Hin).
  apply elem_of_cons in Hin as [[= -> ->]|Hin]; [by left|]. right.
  rewrite Forall_forall in IH. unfold descendants. cbn [family].
  apply list_elem_of_fmap. 
  destruct (IH child Hchild p c Hin) as [->|Hp].
  - exists (Tag name classes attrs contents, child). split; [done|].
    apply elem_of_flat_map. exists child. split; [done|]. apply list_elem_of_here.
  - apply list_elem_of_fmap in Hp as ([q p'] & -> & Hq).
    exists (q, p'). split; [done|]. apply elem_of_flat_map. exists child.
    split; [done|]. by apply list_elem_of_further.
Qed.

(** ** [str.split] on one character *)

Lemma split_char_aux (c : ascii) cur s :
  exists piece pieces,
    split_aux [c] cur 0 s = piece :: pieces /\
    piece ++ flat_map (fun p => c :: p) pieces = rev cur ++ s /\
    (c ∉ cur -> Forall (fun p => c ∉ p) (piece :: pieces)).
Proof.
  revert cur. induction s as [|d s IH]; intros cur.
  - exists (rev cur), []. split; [done|]. split; [done|].
    intros Hcur. constructor; [|done]. by rewrite elem_of_rev.
  - cbn [split_aux startswith length]. rewrite andb_true_r, Nat.sub_diag.
    destruct (Ascii.eqb_spec c d) as [<-|Hc].
    + destruct (IH []) as (piece & pieces & -> & Hjoin & Hnl).
      exists (rev cur), (piece :: pieces). split; [done|]. split.
      * change (rev [] ++ s) with s in Hjoin. cbn [flat_map app]. by rewrite Hjoin.
      * intros Hcur. constructor; [by rewrite elem_of_rev|].
        apply Hnl, not_elem_of_nil.
    + destruct (IH (d :: cur)) as (piece & pieces & -> & Hjoin & Hnl).
      exists piece, pieces. split; [done|]. split.
      * rewrite Hjoin. cbn [rev]. by rewrite <- app_assoc.
      * intros Hcur. apply Hnl. rewrite elem_of_cons.
        intros [?|?]; [by apply Hc | by apply Hcur].
Qed.

(** Two pieces: the text has exactly one [c]. *)
Lemma split_char_two (c : ascii) s a b :
  split [c] s = [a; b] -> s = a ++ (c :: b) /\ (c ∉ a) /\ (c ∉ b).
Proof.
  unfold split. destruct (split_char_aux c [] s) as (piece & pieces & -> & Hjoin & Hno).
  intros [= -> ->]. specialize (Hno (not_elem_of_nil _)).
  cbn [flat_map rev app] in Hjoin. rewrite app_nil_r in Hjoin.
  inversion Hno as [|? ? Ha Hno']. inversion Hno' as [|? ? Hb _]. by subst.
Qed.

Lemma split_aux_char_count (c : ascii) cur s :
  length (split_aux [c] cur 0 s) = S (length (List.filter (Ascii.eqb c) s)).
Proof.
  revert cur. induction s as [|d s IH]; intros cur; [done|].
  cbn [split_aux startswith length List.filter]. rewrite andb_true_r, Nat.sub_diag.
  destruct (Ascii.eqb c d); cbn [length]; by rewrite IH.
Qed.

(** ** [extract_timestamps_from_thumbnails] *)

#[global] Instance by_seconds_total : Total by_seconds.
Proof. intros x y. unfold by_seconds. lia. Qed.

#[global] Instance by_seconds_trans : Transitive by_seconds.
Proof. intros x y z. unfold by_seconds. lia. Qed.

Lemma timestamp_entry_spec timestamp_text t label :
  timestamp_entry timestamp_text = Some (t, label) <->
  label = timestamp_text /\
  exists a b minutes seconds,
    split [":"%char] timestamp_text = [a; b] /\
    py_int a = Some minutes /\ py_int b = Some seconds /\
    t = (minutes * 60 + seconds)%Z.
Proof.
  unfold timestamp_entry. split.
  - destruct (split _ _) as [|a [|b [|? ?]]] eqn:Hsplit; try done.
    destruct (py_int a) as [m|] eqn:Ha; [|done].
    destruct (py_int b) as [s|] eqn:Hb; [|done].
    cbn. intros [= <- <-]. split; [done|]. by exists a, b, m, s.
  - intros (-> & a & b & m & s & -> & Ha & Hb & ->). by rewrite Ha, Hb.
Qed.

Lemma elem_of_extract_timestamps soup x :
  x ∈ extract_timestamps_from_thumbnails soup <->
  exists thumbnail,
    thumbnail ∈ descendants soup /\
    has_name (py "li") thumbnail = true /\ has_class (py "thumbnail") thumbnail = true /\
    thumbnail_entry thumbnail = Some x.
Proof.
  unfold extract_timestamps_from_thumbnails.
  rewrite merge_sort_Permutation, elem_of_elements, elem_of_list_to_set, list_elem_of_omap.
  split; intros (th & Hth & Hentry); exists th.
  - apply elem_of_List_filter in Hth as [Hth Hli]. apply andb_true_iff in Hli as [? ?]. done.
  - destruct Hentry as (Hli & Hcls & Hentry). split; [|done].
    apply elem_of_List_filter. split; [done|]. by rewrite Hli, Hcls.
Qed.

Lemma split_char_one (c : ascii) cur a b :
  c ∉ a -> c ∉ b -> split_aux [c] cur 0 (a ++ c :: b) = [rev cur ++ a; b].
Proof.
  intros Ha Hb. revert cur. induction a as [|d a IH]; intros cur.
  - cbn [app split_aux startswith length]. rewrite Ascii.eqb_refl, Nat.sub_diag.
    cbn [andb]. rewrite app_nil_r. f_equal.
    destruct (split_char_aux c [] b) as (piece & pieces & Hsplit & Hjoin & _).
    rewrite split_aux_none; [done|]. intros k Hk.
    destruct (lookup_lt_is_Some_2 b k Hk) as [x Hx]. rewrite (drop_S _ _ _ Hx).
    cbn [startswith]. destruct (Ascii.eqb_spec c x) as [->|]; [|done].
    exfalso. apply Hb. by eapply list_elem_of_lookup_2.
  - cbn [app split_aux startswith length]. rewrite andb_true_r.
    destruct (Ascii.eqb_spec c d) as [->|Hcd].
    + exfalso. apply Ha, list_elem_of_here.
    + rewrite IH; [|by intros H; apply Ha, list_elem_of_further].
      cbn [rev]. by rewrite <- app_assoc.
Qed.

Lemma extract_timestamps_sorted (soup : node) :
  StronglySorted by_seconds (extract_timestamps_from_thumbnails soup).
Proof. apply StronglySorted_merge_sort; apply _. Qed.

(** X3. The navigation points come out by ascending seconds, and no pair of
    seconds and label is listed twice. *)
Theorem timestamps_are_sorted_and_distinct (soup : node) :
  StronglySorted by_seconds (extract_timestamps_from_thumbnails soup) /\
  NoDup (extract_timestamps_from_thumbnails soup).
Proof.
  split; [apply extract_timestamps_sorted|].
  unfold extract_timestamps_from_thumbnails.
  rewrite merge_sort_Permutation. apply NoDup_elements.
Qed.

(** X2. What is a navigation point: the label of a thumbnail, read in the first
    timestamp [div] below an [li] of class [thumbnail], that has one colon
    with an integer on each side. *)
Theorem timestamps_are_the_parsed_labels (soup : node) (t : Z) (label : str) :
  (t, label) ∈ extract_timestamps_from_thumbnails soup <->
  exists thumbnail timestamp_div a b minutes seconds,
    thumbnail ∈ descendants soup /\
    has_name (py "li") thumbnail = true /\
    has_class (py "thumbnail") thumbnail = true /\
    find_timestamp_div thumbnail = Some timestamp_div /\
    label = strip (get_text timestamp_div) /\
    label = a ++ ":"%char :: b /\ (":"%char ∉ a) /\ (":"%char ∉ b) /\
    py_int a = Some minutes /\ py_int b = Some seconds /\
    t = (minutes * 60 + seconds)%Z.
Proof.
  rewrite elem_of_extract_timestamps. unfold thumbnail_entry. split.
  - intros (th & Hth & Hli & Hcls & Hentry).
    destruct (find_timestamp_div th) as [d|] eqn:Hd; [|done].
    apply timestamp_entry_spec in Hentry as (Hlabel & a & b & m & s & Hsplit & Ha & Hb & ->).
    apply split_char_two in Hsplit as (Heq & Hna & Hnb).
    exists th, d, a, b, m, s. rewrite Hlabel at 2. by rewrite <- Heq.
  - intros (th & d & a & b & m & s & Hth & Hli & Hcls & Hd & Hlabel & Heq & Hna & Hnb
            & Ha & Hb & ->).
    exists th. rewrite Hd, <- Hlabel. split; [done|]. split; [done|]. split; [done|].
    apply timestamp_entry_spec. split; [done|]. exists a, b, m, s.
    split; [|done]. rewrite Heq. unfold split. by rewrite split_char_one.
Qed.

(** X4. A label with hours, h:mm:ss, gives no navigation point: every label
    listed has exactly one colon. *)
Theorem timestamps_with_hours_are_skipped (soup : node) (t : Z) (label : str) :
  (t, label) ∈ extract_timestamps_from_thumbnails soup ->
  length (List.filter (Ascii.eqb ":") label) = 1 /\
  forall h m s, label <> h ++ ":"%char :: m ++ ":"%char :: s.
Proof.
  intros Hin. apply elem_of_extract_timestamps in Hin as (th & _ & _ & _ & Hentry).
  unfold thumbnail_entry in Hentry.
  destruct (find_timestamp_div th) as [timestamp_div|]; [|done].
  apply timestamp_entry_spec in Hentry as (-> & a & b & _ & _ & Hsplit & _).
  assert (Hone : length (List.filter (Ascii.eqb ":") (strip (get_text timestamp_div))) = 1).
  { apply (f_equal length) in Hsplit. unfold split in Hsplit.
    rewrite split_aux_char_count in Hsplit. simpl in Hsplit. lia. }
  split; [done|]. intros h m s Heq. rewrite Heq in Hone.
  rewrite List.filter_app in Hone. cbn [List.filter] in Hone. rewrite Ascii.eqb_refl in Hone.
  rewrite length_app in Hone. cbn [length] in Hone.
  rewrite List.filter_app in Hone. cbn [List.filter] in Hone. rewrite Ascii.eqb_refl in Hone.
  rewrite length_app in Hone. cbn [length] in Hone. lia.
Qed.

Lemma timestamps_with_hours_are_skipped_witness :
  (90%Z, py "1:30") ∈ extract_timestamps_from_thumbnails strip_page /\
  extract_timestamps_from_thumbnails strip_page = [(5%Z, py "0:05"); (90%Z, py "1:30")] /\
  forall h m s, py "1:30" <> h ++ ":"%char :: m ++ ":"%char :: s.
Proof.
  assert (Hall : extract_timestamps_from_thumbnails strip_page =
                 [(5%Z, py "0:05"); (90%Z, py "1:30")]) by (vm_compute; reflexivity).
  assert (Hin : (90%Z, py "1:30") ∈ extract_timestamps_from_thumbnails strip_page).
  { rewrite Hall. apply list_elem_of_further, list_elem_of_here. }
  split; [exact Hin|]. split; [exact Hall|].
  exact (proj2 (timestamps_with_hours_are_skipped strip_page 90 (py "1:30") Hin)).
Defined.

(** ** [extract_image_urls_from_html] *)




Lemma elem_of_image_urls (soup : node) (url timestamp : str) :
  (url, timestamp) ∈ extract_image_urls_from_html soup <->
  exists parent img,
    (parent, img) ∈ family soup /\ has_name (py "img") img = true /\
    get_attr (py "data-src") img = Some url /\ timestamp = image_timestamp parent.
Proof.
  unfold extract_image_urls_from_html. rewrite list_elem_of_fmap. split.
  - intros ([p n] & Heq & Hin). apply elem_of_List_filter in Hin as [Hin Hf].
    cbn [fst snd] in *. apply andb_true_iff in Hf as [Himg Hsrc].
    apply bool_decide_eq_true in Hsrc as [u Hu]. rewrite Hu in Heq.
    injection Heq as -> ->. by exists p, n.
  - intros (p & n & Hin & Himg & Hsrc & ->). exists (p, n). cbn [fst snd].
    rewrite Hsrc. split; [done|]. apply elem_of_List_filter. split; [done|].
    cbn [snd]. rewrite Himg, Hsrc. by rewrite bool_decide_eq_true_2 by by eexists.
Qed.



(** X5. An image with [data-src] that stands directly in an [li] of class
    [thumbnail] is listed with the label of that thumbnail, and when the
    label reads as minutes and seconds the navigation points list it too,
    under the same label. *)
Theorem thumbnail_image_has_a_navigation_point (soup parent img : node)
    (url : str) (x : Z * str) :
  has_name (py "li") soup = false ->
  (parent, img) ∈ family soup ->
  has_name (py "img") img = true ->
  get_attr (py "data-src") img = Some url ->
  has_name (py "li") parent = true ->
  has_class (py "thumbnail") parent = true ->
  timestamp_entry (image_timestamp parent) = Some x ->
  (url, image_timestamp parent) ∈ extract_image_urls_from_html soup /\
  x ∈ extract_timestamps_from_thumbnails soup /\
  x.2 = image_timestamp parent.
Proof.
  intros Hsoup Hin Himg Hsrc Hli Hcls Hentry. split; [|split].
  - apply elem_of_image_urls. by exists parent, img.
  - apply elem_of_extract_timestamps. exists parent.
    split; [|split; [done|split; [done|]]].
    + destruct (family_parent _ _ _ Hin) as [->|?]; [congruence|done].
    + unfold thumbnail_entry. unfold image_timestamp in Hentry. rewrite Hli in Hentry.
      destruct (find_timestamp_div parent); [done|]. by vm_compute in Hentry.
  - destruct x as [t label]. by apply timestamp_entry_spec in Hentry as [-> _].
Qed.

Lemma thumbnail_image_has_a_navigation_point_witness :
  (py "https://host/t1.jpg", py "1:30") ∈ extract_image_urls_from_html strip_page /\
  (90%Z, py "1:30") ∈ extract_timestamps_from_thumbnails strip_page.
Proof.
  pose (img := Tag (py "img") [] [(py "data-src", py "https://host/t1.jpg")] []).
  pose (parent := Tag (py "li") [py "thumbnail"] []
                    [img; Tag (py "div") [py "thumbnail-timestamp"] []
                            [NavigableString (py "1:30")]]).
  assert (Hin : (parent, img) ∈ family strip_page).
  { vm_compute. do 6 apply list_elem_of_further. apply list_elem_of_here. }
  destruct (thumbnail_image_has_a_navigation_point strip_page parent img
              (py "https://host/t1.jpg") (90%Z, py "1:30")
              eq_refl Hin eq_refl eq_refl eq_refl eq_refl eq_refl) as (Hurl & Hpoint & _).
  split; [exact Hurl|exact Hpoint].
Defined.

(** * The run, its frames and its codes *)

(** ** The scan of the video *)

Lemma video_frame_events w seconds time_str rs b :
  exists evs,
    events (video_frame w seconds time_str rs b).2 = events b ++ evs /\
    evs `prefix_of` [Seek seconds; Screenshot seconds; VideoOcr] /\
    seeks evs = [seconds] /\
    (forall rs', (video_frame w seconds time_str rs b).1 = inr rs' ->
       evs = [Seek seconds; Screenshot seconds; VideoOcr]).
Proof.
  unfold video_frame, mbind, M_bind, lift, log. cbn.
  destruct (execute_script w seconds) as [e|[]]; cbn.
  { exists [Seek seconds]. split; [done|]. split; [by eexists|done]. }
  destruct (screenshot_as_png w seconds) as [e|shot]; cbn.
  { exists [Seek seconds; Screenshot seconds]. rewrite <- app_assoc.
    split; [done|]. split; [by eexists|done]. }
  destruct (makedirs w _) as [e|[]]; cbn.
  { exists [Seek seconds; Screenshot seconds]. rewrite <- app_assoc.
    split; [done|]. split; [by eexists|done]. }
  destruct (write_file w _ shot) as [e|[]]; cbn.
  { exists [Seek seconds; Screenshot seconds]. rewrite <- app_assoc.
    split; [done|]. split; [by eexists|done]. }
  destruct (Image_open w shot) as [e|img]; cbn.
  { exists [Seek seconds; Screenshot seconds]. rewrite <- app_assoc.
    split; [done|]. split; [by eexists|done]. }
  assert (Hall : ((events b ++ [Seek seconds]) ++ [Screenshot seconds]) ++ [VideoOcr] =
                 events b ++ [Seek seconds; Screenshot seconds; VideoOcr]).
  { by rewrite <- !app_assoc. }
  destruct (image_to_string w img) as [e|text]; cbn.
  { eexists. split; [exact Hall|]. split; [done|done]. }
  destruct (video_frame_codes _ _ _ _ _ _); cbn; eexists; (split; [exact Hall|done]).
Qed.

Lemma seeks_app evs1 evs2 : seeks (evs1 ++ evs2) = seeks evs1 ++ seeks evs2.
Proof. apply omap_app. Qed.

Lemma seeks_visits stamps : seeks (visits stamps) = map fst stamps.
Proof. induction stamps as [|[s t] stamps IH]; [done|]. cbn. by rewrite <- IH. Qed.

Lemma seeks_prefix evs1 evs2 : evs1 `prefix_of` evs2 -> seeks evs1 `prefix_of` seeks evs2.
Proof. intros [k ->]. rewrite seeks_app. by eexists. Qed.


Lemma video_scan_events w stamps rs b :
  exists evs,
    events (video_scan w stamps rs b).2 = events b ++ evs /\
    evs `prefix_of` visits stamps /\
    (forall rs', (video_scan w stamps rs b).1 = inr rs' -> evs = visits stamps).
Proof.
  revert rs b. induction stamps as [|[s t] stamps IH]; intros rs b.
  - exists []. cbn. by rewrite app_nil_r.
  - cbn [video_scan]. unfold mbind, M_bind.
    destruct (video_frame_events w s t rs b) as (evs & Hev & Hpre & _ & Hall).
    destruct (video_frame w s t rs b) as [[e|rs1] b1]; cbn [fst snd] in *.
    + exists evs. split; [done|]. split; [|done].
      etrans; [exact Hpre|]. by apply prefix_app_r.
    + rewrite (Hall _ eq_refl) in Hev.
      destruct (IH rs1 b1) as (evs' & Hev' & Hpre' & Hall').
      exists ([Seek s; Screenshot s; VideoOcr] ++ evs').
      rewrite Hev', Hev, <- app_assoc. split; [done|]. split.
      * by apply prefix_app.
      * intros rs' H. by rewrite (Hall' _ H).
Qed.

(** What a frame that is read adds to the results. *)
Lemma video_frame_result w seconds time_str rs b rs' b' :
  video_frame w seconds time_str rs b = (inr rs', b') ->
  exists shot img text,
    screenshot_as_png w seconds = inr shot /\
    Image_open w shot = inr img /\
    image_to_string w img = inr text /\
    rs' = if bool_decide (recognize_video text <> [])
          then rs ++ [(time_str, recognize_video text,
                       py "video_frames/frame_" ++ underscored ":" time_str ++ py ".png")]
          else rs.
Proof.
  unfold video_frame, mbind, M_bind, lift, log. cbn.
  destruct (execute_script w seconds) as [e|[]]; cbn; [done|].
  destruct (screenshot_as_png w seconds) as [e|shot] eqn:Hshot; cbn; [done|].
  destruct (makedirs w _) as [e|[]]; cbn; [done|].
  destruct (write_file w _ shot) as [e|[]]; cbn; [done|].
  destruct (Image_open w shot) as [e|img] eqn:Himg; cbn; [done|].
  destruct (image_to_string w img) as [e|text] eqn:Htext; cbn; [done|].
  unfold video_frame_codes. intros H. exists shot, img, text.
  split; [done|]. split; [done|]. split; [done|].
  revert H. destruct (bool_decide (recognize_video text <> [])).
  - unfold mbind, res_bind. destruct (makedirs w _) as [e|[]]; [done|].
    destruct (for_each _ _) as [e|[]]; [done|]. by intros [= <- _].
  - by intros [= <- _].
Qed.

Lemma video_scan_result w stamps rs b rs' b' :
  video_scan w stamps rs b = (inr rs', b') ->
  exists new,
    rs' = rs ++ new /\
    forall o : outcome, o ∈ new ->
      exists seconds shot img text,
        (seconds, o.1.1) ∈ stamps /\
        screenshot_as_png w seconds = inr shot /\
        Image_open w shot = inr img /\
        image_to_string w img = inr text /\
        o.1.2 = recognize_video text.
Proof.
  revert rs b. induction stamps as [|[s t] stamps IH]; intros rs b.
  - intros [= <- _]. exists []. rewrite app_nil_r. split; [done|].
    intros o Ho. by apply elem_of_nil in Ho.
  - cbn [video_scan]. unfold mbind, M_bind.
    destruct (video_frame w s t rs b) as [[e|rs1] b1] eqn:Hframe; [done|].
    intros Hscan. apply IH in Hscan as (new & -> & Hnew).
    apply video_frame_result in Hframe as (shot & img & text & Hshot & Himg & Htext & ->).
    assert (Hlater : forall o : outcome, o ∈ new ->
      exists seconds shot img text,
        (seconds, o.1.1) ∈ (s, t) :: stamps /\
        screenshot_as_png w seconds = inr shot /\
        Image_open w shot = inr img /\
        image_to_string w img = inr text /\
        o.1.2 = recognize_video text).
    { intros o Ho. destruct (Hnew o Ho) as (s' & shot' & img' & text' & Hin & H).
      exists s', shot', img', text'. split; [by apply list_elem_of_further|done]. }
    case_bool_decide.
    + eexists. rewrite <- app_assoc. split; [done|].
      intros o Ho. apply elem_of_cons in Ho as [->|Ho]; [|by apply Hlater].
      exists s, shot, img, text. split; [apply list_elem_of_here|done].
    + by exists new.
Qed.

(** ** Merging the codes of the video *)

Lemma add_video_codes_bound s codes :
  add_video_codes (Some s) codes = inr (Some (add_codes s codes)).
Proof.
  revert s. induction codes as [|c codes IH]; intros s; [done|].
  cbn [add_video_codes read_found_codes]. unfold mbind, res_bind, mret, res_ret.
  rewrite IH. do 2 f_equal. unfold add_codes. cbn [foldl]. f_equal.
  case_bool_decide as Hc; [|done]. apply set_eq. intros x.
  rewrite elem_of_union, elem_of_singleton. split; [by right|].
  by intros [->|?].
Qed.

Lemma merge_video_results_bound s rs :
  merge_video_results (Some s) rs = inr (Some (s ∪ collect_codes rs)).
Proof.
  assert (H : exists s', merge_video_results (Some s) rs = inr (Some s') /\
                forall c, c ∈ s' <-> c ∈ s \/ exists r : outcome, r ∈ rs /\ c ∈ r.1.2).
  { revert s. induction rs as [|r rs IH]; intros s.
    - exists s. split; [done|]. intros c. split; [by left|].
      intros [?|(r & Hr & _)]; [done|]. by apply elem_of_nil in Hr.
    - cbn [merge_video_results]. rewrite add_video_codes_bound.
      unfold mbind, res_bind. destruct (IH (add_codes s r.1.2)) as (s' & -> & Hs').
      exists s'. split; [done|]. intros c. rewrite Hs', add_codes_elem. split.
      + intros [[?|?]|(r' & Hr' & Hc)]; [by left| |].
        * right. exists r. split; [apply list_elem_of_here|done].
        * right. exists r'. split; [by apply list_elem_of_further|done].
      + intros [?|(r' & Hr' & Hc)]; [by left; left|].
        apply elem_of_cons in Hr' as [->|Hr']; [by left; right|].
        right. by exists r'. }
  destruct H as (s' & -> & Hs'). do 2 f_equal. apply set_eq. intros c.
  by rewrite Hs', elem_of_union, collect_codes_elem.
Qed.

(** ** The run *)

Lemma find_video_player_run w b :
  find_video_player w b =
    (inr (panopto_player w || video_element w),
     Browser (currentTime b) (events b ++ player_search w)).
Proof.
  unfold find_video_player, player_search, mbind, M_bind, log, mret, M_ret. cbn.
  destruct (panopto_player w); cbn; [done|]. by rewrite <- app_assoc.
Qed.

(** When the thumbnails leave no code, the run is the video phase and the
    [finally] clause. *)
Lemma run_without_thumbnail_codes w b :
  thumbnail_found_codes w = None \/ thumbnail_found_codes w = Some ∅ ->
  extract_attendance_codes w b =
    try_finally (video_phase w (thumbnail_found_codes w)) (log Quit) b.
Proof.
  intros [H|H]; unfold extract_attendance_codes, try_finally; rewrite H; [done|].
  rewrite bool_decide_eq_false_2; [done|]. by intros Hne.
Qed.

(** The video phase on a page with a player, in terms of the scan. *)
Lemma video_phase_scan w fc b :
  panopto_player w || video_element w = true ->
  video_phase w fc b =
    let '(r, b') := video_scan w (timestamps w) []
                      (Browser (currentTime b) (events b ++ player_search w)) in
    match r with
    | inl e => (inl e, b')
    | inr rs =>
        match merge_video_results fc rs ≫= read_found_codes with
        | inl e => (inl e, b')
        | inr s => (inr (elements s), b')
        end
    end.
Proof.
  intros Hfound. unfold video_phase. unfold mbind at 1, M_bind at 1.
  rewrite find_video_player_run, Hfound. cbn [negb].
  unfold mbind at 1, M_bind at 1.
  destruct (video_scan _ _ _ _) as [[e|rs] b']; [done|].
  unfold mbind, M_bind, lift, res_bind.
  destruct (merge_video_results fc rs) as [e|fc']; [done|].
  by destruct (read_found_codes fc').
Qed.

Lemma video_scan_app w stamps1 stamps2 rs b :
  video_scan w (stamps1 ++ stamps2) rs b =
    match video_scan w stamps1 rs b with
    | (inl e, b') => (inl e, b')
    | (inr rs', b') => video_scan w stamps2 rs' b'
    end.
Proof.
  revert rs b. induction stamps1 as [|[s t] stamps1 IH]; intros rs b; [done|].
  cbn [app video_scan]. unfold mbind, M_bind.
  destruct (video_frame w s t rs b) as [[e|rs1] b1]; [done|]. apply IH.
Qed.

Lemma seeks_player_search w : seeks (player_search w) = [].
Proof. unfold player_search. by destruct (panopto_player w). Qed.

Lemma video_phase_events w fc b :
  exists scan,
    events (video_phase w fc b).2 = events b ++ player_search w ++ scan /\
    scan `prefix_of` visits (timestamps w).
Proof.
  destruct (panopto_player w || video_element w) eqn:Hfound.
  - rewrite video_phase_scan by done.
    destruct (video_scan_events w (timestamps w) []
                (Browser (currentTime b) (events b ++ player_search w)))
      as (scan & Hev & Hpre & _).
    exists scan. split; [|done]. cbn [events] in Hev. rewrite <- app_assoc in Hev.
    destruct (video_scan _ _ _ _) as [[e|rs] b']; cbn [snd] in *; [done|].
    by destruct (merge_video_results fc rs ≫= read_found_codes).
  - exists []. split; [|apply prefix_nil].
    unfold video_phase, mbind, M_bind. rewrite find_video_player_run, Hfound.
    cbn. by rewrite app_nil_r.
Qed.

Lemma run_events w b :
  exists evs,
    events (extract_attendance_codes w b).2 = events b ++ evs ++ [Quit] /\
    (evs = [] \/
     exists scan, evs = player_search w ++ scan /\ scan `prefix_of` visits (timestamps w)).
Proof.
  assert (Hphase : forall fc,
    exists evs,
      events (try_finally (video_phase w fc) (log Quit) b).2 = events b ++ evs ++ [Quit] /\
      (evs = [] \/
       exists scan, evs = player_search w ++ scan /\ scan `prefix_of` visits (timestamps w))).
  { intros fc. destruct (video_phase_events w fc b) as (scan & Hev & Hpre).
    exists (player_search w ++ scan). split; [|right; by exists scan].
    unfold try_finally, log. destruct (video_phase w fc b) as [r b']. cbn in *.
    by rewrite Hev, <- !app_assoc. }
  destruct (thumbnail_found_codes w) as [s|] eqn:Hfc.
  - destruct (decide (s = ∅)) as [->|Hne].
    + rewrite run_without_thumbnail_codes by by right. rewrite Hfc. apply Hphase.
    + exists []. split; [|by left].
      unfold extract_attendance_codes, try_finally. rewrite Hfc.
      by rewrite bool_decide_eq_true_2.
  - rewrite run_without_thumbnail_codes by by left. rewrite Hfc. apply Hphase.
Qed.

(** X12. When the thumbnails were read and gave no code, a player is on the page
    and every frame of the video is read, the run returns the codes of the
    frames: each code of each result of the scan, once. Every navigation
    point was visited, in the order of the list, and the browser is quit
    last. *)
Theorem video_codes_are_returned (w : world) (b b' : browser) (rs : list outcome) :
  thumbnail_found_codes w = Some ∅ ->
  panopto_player w || video_element w = true ->
  video_scan w (timestamps w) [] (find_video_player w b).2 = (inr rs, b') ->
  extract_attendance_codes w b =
    (inr (elements (collect_codes rs)),
     Browser (currentTime b') (events b' ++ [Quit])) /\
  events b' = events b ++ player_search w ++ visits (timestamps w) /\
  forall c, c ∈ elements (collect_codes rs) <->
            exists r : outcome, r ∈ rs /\ c ∈ r.1.2.
Proof.
  intros Hfc Hfound Hscan. rewrite find_video_player_run in Hscan. cbn [snd] in Hscan.
  split; [|split].
  - rewrite run_without_thumbnail_codes by by right.
    unfold try_finally. rewrite video_phase_scan by done. rewrite Hscan, Hfc.
    rewrite merge_video_results_bound. cbn. by rewrite (left_id_L ∅ (∪)).
  - destruct (video_scan_events w (timestamps w) []
                (Browser (currentTime b) (events b ++ player_search w)))
      as (scan & Hev & _ & Hall).
    rewrite Hscan in Hev, Hall. cbn [fst snd events] in *.
    by rewrite Hev, (Hall rs eq_refl), <- app_assoc.
  - intros c. by rewrite elem_of_elements, collect_codes_elem.
Qed.

Lemma video_codes_are_returned_witness :
  thumbnail_found_codes blank_thumbnail_world = Some ∅ /\
  video_scan blank_thumbnail_world (timestamps blank_thumbnail_world) []
      (find_video_player blank_thumbnail_world fresh).2 =
    (inr [(py "1:30", [py "QRST UVWX"], py "video_frames/frame_1_30.png");
          (py "2:00", [py "QRST UVWX"; py "QRST UVWX"], py "video_frames/frame_2_00.png")],
     Browser 120 [WaitPlayer; FindVideo; Seek 0; Screenshot 0; VideoOcr;
                  Seek 90; Screenshot 90; VideoOcr;
                  Seek 120; Screenshot 120; VideoOcr]) /\
  extract_attendance_codes blank_thumbnail_world fresh =
    (inr [py "QRST UVWX"],
     Browser 120 [WaitPlayer; FindVideo; Seek 0; Screenshot 0; VideoOcr;
                  Seek 90; Screenshot 90; VideoOcr;
                  Seek 120; Screenshot 120; VideoOcr; Quit]).
Proof.
  assert (Hfc : thumbnail_found_codes blank_thumbnail_world = Some ∅).
  { vm_compute. reflexivity. }
  assert (Hscan :
    video_scan blank_thumbnail_world (timestamps blank_thumbnail_world) []
        (find_video_player blank_thumbnail_world fresh).2 =
      (inr [(py "1:30", [py "QRST UVWX"], py "video_frames/frame_1_30.png");
            (py "2:00", [py "QRST UVWX"; py "QRST UVWX"], py "video_frames/frame_2_00.png")],
       Browser 120 [WaitPlayer; FindVideo; Seek 0; Screenshot 0; VideoOcr;
                    Seek 90; Screenshot 90; VideoOcr;
                    Seek 120; Screenshot 120; VideoOcr])).
  { vm_compute. reflexivity. }
  split; [exact Hfc|]. split; [exact Hscan|].
  rewrite (proj1 (video_codes_are_returned blank_thumbnail_world fresh _ _
                    Hfc eq_refl Hscan)).
  vm_compute. reflexivity.
Defined.



(** X13. A frame of the video that fails ends the run: what it raises is raised
    by the run, after the browser is quit; the codes of the frames read
    before are lost with it and no later navigation point is sought. *)
Theorem failing_frame_ends_the_run (w : world) (b b1 b2 : browser)
    (visited rest : list (Z * str)) (seconds : Z) (time_str : str)
    (rs : list outcome) (e : exn) :
  thumbnail_found_codes w = None \/ thumbnail_found_codes w = Some ∅ ->
  panopto_player w || video_element w = true ->
  timestamps w = visited ++ (seconds, time_str) :: rest ->
  video_scan w visited [] (find_video_player w b).2 = (inr rs, b1) ->
  video_frame w seconds time_str rs b1 = (inl e, b2) ->
  extract_attendance_codes w b =
    (inl e, Browser (currentTime b2) (events b2 ++ [Quit])) /\
  seeks (events b2) = seeks (events b) ++ map fst visited ++ [seconds].
Proof.
  intros Hfc Hfound Hstamps Hscan Hframe.
  rewrite find_video_player_run in Hscan. cbn [snd] in Hscan. split.
  - rewrite run_without_thumbnail_codes by done.
    unfold try_finally. rewrite video_phase_scan by done.
    rewrite Hstamps, video_scan_app, Hscan. cbn [video_scan].
    unfold mbind at 1, M_bind at 1. by rewrite Hframe.
  - destruct (video_scan_events w visited []
                (Browser (currentTime b) (events b ++ player_search w)))
      as (scan & Hev & _ & Hall).
    rewrite Hscan in Hev, Hall. cbn [fst snd events] in *.
    rewrite (Hall rs eq_refl) in Hev.
    destruct (video_frame_events w seconds time_str rs b1) as (evs & Hev' & _ & Hseek & _).
    rewrite Hframe in Hev'. cbn [snd] in Hev'.
    rewrite Hev', Hev, !seeks_app, seeks_player_search, seeks_visits, Hseek.
    by rewrite <- !app_assoc.
Qed.

Lemma failing_frame_ends_the_run_witness :
  thumbnail_found_codes broken_frame_world = Some ∅ /\
  timestamps broken_frame_world =
    [(0%Z, py "0:00")] ++ (90%Z, py "1:30") :: [(120%Z, py "2:00")] /\
  screenshot_as_png broken_frame_world 90 = inl WebDriverException /\
  extract_attendance_codes broken_frame_world fresh =
    (inl WebDriverException,
     Browser 90 [WaitPlayer; FindVideo; Seek 0; Screenshot 0; VideoOcr;
                 Seek 90; Screenshot 90; Quit]).
Proof.
  assert (Hfc : thumbnail_found_codes broken_frame_world = Some ∅).
  { vm_compute. reflexivity. }
  assert (Hstamps : timestamps broken_frame_world =
            [(0%Z, py "0:00")] ++ (90%Z, py "1:30") :: [(120%Z, py "2:00")]).
  { vm_compute. reflexivity. }
  assert (Hscan :
    video_scan broken_frame_world [(0%Z, py "0:00")] []
        (find_video_player broken_frame_world fresh).2 =
      (inr [], Browser 0 [WaitPlayer; FindVideo; Seek 0; Screenshot 0; VideoOcr])).
  { vm_compute. reflexivity. }
  assert (Hframe :
    video_frame broken_frame_world 90 (py "1:30") []
        (Browser 0 [WaitPlayer; FindVideo; Seek 0; Screenshot 0; VideoOcr]) =
      (inl WebDriverException,
       Browser 90 [WaitPlayer; FindVideo; Seek 0; Screenshot 0; VideoOcr;
                   Seek 90; Screenshot 90])).
  { vm_compute. reflexivity. }
  split; [exact Hfc|]. split; [exact Hstamps|]. split; [reflexivity|].
  exact (proj1 (failing_frame_ends_the_run broken_frame_world fresh _ _ _ _ _ _ _ _
                  (or_intror Hfc) eq_refl Hstamps Hscan Hframe)).
Defined.


(** ** The shape of a code *)

Lemma lstrip_head s c s' : lstrip s = c :: s' -> is_space c = false.
Proof.
  induction s as [|d s IH]; [done|]. cbn [lstrip].
  destruct (is_space d) eqn:Hd; [done|]. by intros [= <- _].
Qed.

Lemma lstrip_suffix s : exists spaces, s = spaces ++ lstrip s.
Proof.
  induction s as [|d s [spaces IH]]; [by exists []|]. cbn [lstrip].
  destruct (is_space d); [|by exists []]. exists (d :: spaces). cbn. by rewrite <- IH.
Qed.

Lemma head_rev {A} (l : list A) : head (rev l) = last l.
Proof. rewrite rev_alt. apply head_reverse. Qed.

Lemma last_rev {A} (l : list A) : last (rev l) = head l.
Proof. rewrite rev_alt. apply last_reverse. Qed.

Lemma strip_ends s c :
  (head (strip s) = Some c \/ last (strip s) = Some c) -> is_space c = false.
Proof.
  unfold strip. intros [H|H].
  - rewrite head_rev in H.
    destruct (lstrip_suffix (rev (lstrip s))) as [spaces Hsp].
    assert (Hlast : last (rev (lstrip s)) = Some c).
    { rewrite Hsp. destruct (lstrip (rev (lstrip s))) as [|x l] eqn:Hl; [done|].
      rewrite last_app. by rewrite H. }
    rewrite last_rev in Hlast. destruct (lstrip s) as [|x l] eqn:Hl; [done|].
    injection Hlast as ->. by eapply lstrip_head.
  - rewrite last_rev in H. destruct (lstrip (rev (lstrip s))) as [|x l] eqn:Hl; [done|].
    injection H as ->. by eapply lstrip_head.
Qed.

Lemma letters_and_spaces_shaped c :
  letters_and_spaces (strip c) = true -> 3 < length (strip c) -> code_shaped (strip c).
Proof.
  unfold letters_and_spaces. intros Hls Hlen.
  apply andb_true_iff in Hls as [_ Hall]. rewrite forallb_forall in Hall.
  assert (Hchars : forall ch, ch ∈ strip c -> is_upper ch = true \/ is_space ch = true).
  { intros ch Hch. apply orb_true_iff, Hall. by apply list_elem_of_In. }
  assert (Hends : forall x, head (strip c) = Some x \/ last (strip c) = Some x ->
                            is_space x = false) by apply strip_ends.
  clear Hall. revert Hlen Hchars Hends. generalize (strip c). intros s Hlen Hchars Hends.
  split; [lia|]. split; [by apply Forall_forall|]. split.
  - destruct s as [|x l]; [cbn in Hlen; lia|]. exists x. split; [done|].
    destruct (Hchars x) as [?|Hsp]; [apply list_elem_of_here|done|].
    rewrite Hends in Hsp; [done|by left].
  - destruct (last s) as [x|] eqn:Hl.
    + exists x. split; [done|]. destruct (Hchars x) as [?|Hsp]; [|done|].
      * apply last_Some in Hl as [l' ->]. apply elem_of_app. right. apply list_elem_of_here.
      * rewrite Hends in Hsp; [done|by right].
    + apply last_None in Hl. rewrite Hl in Hlen. cbn in Hlen. lia.
Qed.

Lemma token_ends t :
  token t ->
  (exists x, head t = Some x /\ is_upper x = true) /\
  (exists x, last t = Some x /\ is_upper x = true).
Proof.
  intros [Hlen Hall]. rewrite forallb_forall in Hall. split.
  - destruct t as [|x t]; [cbn in Hlen; lia|]. exists x. split; [done|].
    apply Hall. by left.
  - destruct (last t) as [x|] eqn:Hl.
    + exists x. split; [done|]. apply Hall, list_elem_of_In.
      apply last_Some in Hl as [l' ->]. apply elem_of_app. right. apply list_elem_of_here.
    + apply last_None in Hl. rewrite Hl in Hlen. cbn in Hlen. lia.
Qed.

Lemma spaced_last t ts :
  token t -> Forall token ts ->
  exists x, last (spaced t ts) = Some x /\ is_upper x = true.
Proof.
  intros Ht Hts. revert t Ht. induction Hts as [|t1 ts Ht1 Hts IH]; intros t Ht.
  - unfold spaced. cbn. rewrite app_nil_r. by apply token_ends.
  - destruct (IH t1 Ht1) as (x & Hx & Hup). exists x. split; [|done].
    change (spaced t (t1 :: ts)) with (t ++ " "%char :: spaced t1 ts).
    by rewrite last_app, last_cons, Hx.
Qed.

Lemma spaced_shaped t ts : token t -> Forall token ts -> code_shaped (spaced t ts).
Proof.
  intros Ht Hts. split; [|split; [|split]].
  - unfold spaced. rewrite length_app. destruct Ht. lia.
  - eapply Forall_impl; [by apply spaced_chars|].
    intros ch [? | ->]; [by left|by right].
  - destruct (token_ends t Ht) as [(x & Hx & Hup) _]. exists x. split; [|done].
    unfold spaced. destruct t; [done|]. done.
  - by apply spaced_last.
Qed.

Lemma findall_shaped lo text c :
  c ∈ filter_matches (re_findall (code_pattern lo) text) -> code_shaped c.
Proof.
  intros Hc. apply elem_of_filter_matches in Hc as [Hc _].
  apply findall_sound in Hc as (_ & t & ts & Ht & Hts & _ & ->).
  by apply spaced_shaped.
Qed.

Lemma recognize_video_shaped text c : c ∈ recognize_video text -> code_shaped c.
Proof.
  unfold recognize_video. destruct (re_search _ _); [|by intros H; apply elem_of_nil in H].
  apply findall_shaped.
Qed.

Lemma first_code_line_shaped lines c :
  first_code_line lines = FallbackCode c -> code_shaped c.
Proof.
  induction lines as [|line lines IH]; [done|]. cbn [first_code_line].
  destruct (code_line line) eqn:Hline; [|done]. intros [= <-].
  unfold code_line in Hline. apply andb_true_iff in Hline as [Hpat Hlen].
  rewrite line_pattern_spec in Hpat. apply Nat.ltb_lt in Hlen.
  by apply letters_and_spaces_shaped.
Qed.

(** What [recognize_thumbnail] returns: never an exception. *)
Lemma recognize_thumbnail_cases text :
  (exists filtered_matches,
     recognize_thumbnail text = inr (Matches filtered_matches) /\
     filtered_matches = filter_matches (re_findall thumbnail_code_pattern text) /\
     filtered_matches <> []) \/
  (exists after_prompt,
     filter_matches (re_findall thumbnail_code_pattern text) = [] /\
     split prompt text !! 1 = Some after_prompt /\
     recognize_thumbnail text =
       inr (first_code_line (take 5 (split newline after_prompt)))) \/
  recognize_thumbnail text = inr NoCode.
Proof.
  unfold recognize_thumbnail. destruct (re_search _ _); [|by right; right].
  case_bool_decide as Hfm.
  - left. by eexists.
  - assert (Hnil : filter_matches (re_findall thumbnail_code_pattern text) = []).
    { by destruct (filter_matches _). }
    destruct (str_in prompt text) eqn:Hin; [|by right; right].
    apply str_in_spec in Hin.
    destruct (split_second prompt text) as (a & after_prompt & rest & _ & _ & _ & _ & Hsplit);
      [done|done|].
    right; left. exists after_prompt. split; [done|]. split; [done|].
    unfold index. by rewrite Hsplit.
Qed.

Lemma recognize_thumbnail_shaped text r c :
  recognize_thumbnail text = inr r -> c ∈ codes_of r -> code_shaped c.
Proof.
  destruct (recognize_thumbnail_cases text)
    as [(fm & -> & -> & _)|[(after_prompt & _ & _ & ->)| ->]]; intros [= <-]; cbn [codes_of].
  - apply findall_shaped.
  - destruct (first_code_line_cases (take 5 (split newline after_prompt)))
      as [-> | [c' Hline]].
    + by intros H; apply elem_of_nil in H.
    + rewrite Hline. cbn [codes_of]. intros ->%list_elem_of_singleton.
      by eapply first_code_line_shaped.
  - by intros H; apply elem_of_nil in H.
Qed.

(** ** The outcome of a thumbnail task *)

Lemma archive_thumbnail_some w timestamp filename img r o :
  archive_thumbnail w timestamp filename img r = inr (Some o) ->
  o = (timestamp, codes_of r, filename) /\ r <> NoCode.
Proof.
  destruct r as [fm|c|]; cbn [archive_thumbnail codes_of]; unfold mbind, res_bind.
  - destruct (makedirs w _) as [e|[]]; [done|].
    destruct (for_each _ _) as [e|[]]; [done|]. by intros [= <-].
  - destruct (makedirs w _) as [e|[]]; [done|].
    destruct (image_save w img _) as [e|[]]; [done|]. by intros [= <-].
  - done.
Qed.

Lemma download_and_process_image_some w url timestamp o :
  download_and_process_image w (url, timestamp) = inr (Some o) ->
  exists content img text r,
    requests_get w url = inr (200%Z, content) /\
    Image_open w content = inr img /\
    image_to_string w img = inr text /\
    recognize_thumbnail text = inr r /\
    codes_of r <> [] /\
    o = (timestamp, codes_of r,
         py "thumbnails/thumbnail_" ++ underscored ":" timestamp ++ py ".jpg").
Proof.
  unfold download_and_process_image, try_except.
  destruct (download_and_process_image_body w url timestamp) as [e|o'] eqn:Hbody; [done|].
  intros [= ->]. revert Hbody. unfold download_and_process_image_body, mbind, res_bind.
  destruct (requests_get w url) as [e|[status_code content]] eqn:Hget; [done|].
  destruct (status_code =? 200)%Z eqn:Hstatus; cbn [negb]; [|done].
  apply Z.eqb_eq in Hstatus as ->.
  destruct (makedirs w _) as [e|[]]; [done|].
  destruct (write_file w _ content) as [e|[]]; [done|].
  destruct (Image_open w content) as [e|img] eqn:Himg; [done|].
  destruct (image_to_string w img) as [e|text] eqn:Htext; [done|].
  destruct (recognize_thumbnail text) as [e|r] eqn:Hr; [done|].
  intros Harchive. apply archive_thumbnail_some in Harchive as [-> Hcode].
  exists content, img, text, r. repeat (split; [done|]). split; [|done].
  destruct (recognize_thumbnail_cases text)
    as [(fm & Hfm & _ & Hne)|[(after_prompt & _ & _ & Hfb)|Hno]].
  - rewrite Hfm in Hr. by injection Hr as <-.
  - destruct r as [fm|c|]; [|done|done].
    rewrite Hfb in Hr. injection Hr as Hr.
    by destruct (first_code_line_cases (take 5 (split newline after_prompt)))
      as [H|[c H]]; rewrite H in Hr.
  - rewrite Hno in Hr. by injection Hr as <-.
Qed.

Lemma gather_elem task completed (o : outcome) :
  o ∈ gather task completed [] <->
  exists d, d ∈ completed /\ task d = inr (Some o).
Proof.
  rewrite gather_omap. cbn [app]. rewrite list_elem_of_omap.
  split; intros (d & Hd & H); exists d; (split; [done|]).
  - by destruct (task d) as [e|[o'|]]; cbn in H; simplify_eq.
  - by rewrite H.
Qed.

(** X8. When a thumbnail task returns a tuple, the image was fetched with
    status 200, decoded and read, and the tuple holds the timestamp of the
    descriptor, the codes recognized in the text, of which there is at least
    one, each of the shape of a code, and the file the image was saved to,
    named after the timestamp. *)
Theorem thumbnail_outcome_is_read_from_the_image (w : world)
    (url timestamp : str) (o : outcome) :
  download_and_process_image w (url, timestamp) = inr (Some o) ->
  exists content img text r,
    requests_get w url = inr (200%Z, content) /\
    Image_open w content = inr img /\
    image_to_string w img = inr text /\
    recognize_thumbnail text = inr r /\
    o = (timestamp, codes_of r,
         py "thumbnails/thumbnail_" ++ underscored ":" timestamp ++ py ".jpg") /\
    codes_of r <> [] /\
    Forall code_shaped (codes_of r).
Proof.
  intros Ho.
  apply download_and_process_image_some in Ho
    as (content & img & text & r & Hget & Himg & Htext & Hr & Hne & ->).
  exists content, img, text, r. repeat (split; [done|]).
  apply Forall_forall. intros c Hc. by eapply recognize_thumbnail_shaped.
Qed.

Lemma thumbnail_outcome_is_read_from_the_image_witness :
  download_and_process_image thumbnail_world (py "https://host/t0.jpg", py "0:00") =
    inr (Some (py "0:00", [py "ABCD EFGH"], py "thumbnails/thumbnail_0_00.jpg")) /\
  exists content img text r,
    requests_get thumbnail_world (py "https://host/t0.jpg") = inr (200%Z, content) /\
    Image_open thumbnail_world content = inr img /\
    image_to_string thumbnail_world img = inr text /\
    recognize_thumbnail text = inr r /\
    (py "0:00", [py "ABCD EFGH"], py "thumbnails/thumbnail_0_00.jpg") =
      (py "0:00", codes_of r,
       py "thumbnails/thumbnail_" ++ underscored ":" (py "0:00") ++ py ".jpg") /\
    codes_of r <> [] /\
    Forall code_shaped (codes_of r).
Proof.
  assert (H : download_and_process_image thumbnail_world
                (py "https://host/t0.jpg", py "0:00") =
              inr (Some (py "0:00", [py "ABCD EFGH"], py "thumbnails/thumbnail_0_00.jpg"))).
  { vm_compute. reflexivity. }
  split; [exact H|].
  exact (thumbnail_outcome_is_read_from_the_image thumbnail_world _ _ _ H).
Defined.

(** X9. The thumbnails leave the set of codes bound and empty, so that the
    video is scanned with it, exactly when the page lists a thumbnail and
    every task returned [None]. *)
Theorem video_is_scanned_when_no_task_returns (w : world) :
  thumbnail_found_codes w = Some ∅ <->
  image_urls w <> [] /\
  forall d, d ∈ as_completed w (image_urls w) -> download_and_process_image w d = inr None.
Proof.
  unfold thumbnail_found_codes. case_bool_decide as Hurls; [|split; [done|by intros [? _]]].
  split.
  - intros [= Hcodes]. split; [done|]. intros [url timestamp] Hd.
    destruct (download_and_process_image_returns w (url, timestamp)) as [[o|] Ho]; [|done].
    exfalso.
    destruct (download_and_process_image_some _ _ _ _ Ho)
      as (_ & _ & _ & r & _ & _ & _ & _ & Hne & ->).
    destruct (codes_of r) as [|c codes] eqn:Hr; [done|].
    assert (Hc : c ∈ collect_codes (gather (download_and_process_image w)
                                      (as_completed w (image_urls w)) [])).
    { apply collect_codes_elem. eexists. split.
      - apply gather_elem. by exists (url, timestamp).
      - cbn. apply list_elem_of_here. }
    rewrite Hcodes in Hc. by apply not_elem_of_empty in Hc.
  - intros [_ Hnone]. f_equal. apply set_eq. intros c.
    rewrite collect_codes_elem. split; [|by intros H; apply not_elem_of_empty in H].
    intros (o & Ho & _). apply gather_elem in Ho as (d & Hd & Ho).
    by rewrite (Hnone d Hd) in Ho.
Qed.

(** ** Where a returned code comes from *)

Lemma thumbnail_code_source w s c :
  thumbnail_found_codes w = Some s -> c ∈ s -> thumbnail_source w c.
Proof.
  unfold thumbnail_found_codes. case_bool_decide; [|done]. intros [= <-] Hc.
  apply collect_codes_elem in Hc as (o & Ho & Hc).
  apply gather_elem in Ho as ([url timestamp] & Hd & Ho).
  apply download_and_process_image_some in Ho
    as (content & img & text & r & Hget & Himg & Htext & Hr & _ & ->).
  by exists url, timestamp, content, img, text, r.
Qed.

Lemma video_phase_codes w fc b codes :
  (video_phase w fc b).1 = inr codes ->
  codes = [] \/
  exists s rs b',
    fc = Some s /\
    video_scan w (timestamps w) []
      (Browser (currentTime b) (events b ++ player_search w)) = (inr rs, b') /\
    codes = elements (s ∪ collect_codes rs).
Proof.
  destruct (panopto_player w || video_element w) eqn:Hfound.
  - rewrite video_phase_scan by done.
    destruct (video_scan _ _ _ _) as [[e|rs] b'] eqn:Hscan; [done|].
    destruct fc as [s|].
    + rewrite merge_video_results_bound. cbn. intros [= <-]. right. by exists s, rs, b'.
    + by destruct (merge_video_results_unbound_cases rs) as [-> | ->].
  - unfold video_phase, mbind, M_bind. rewrite find_video_player_run, Hfound.
    cbn. intros [= <-]. by left.
Qed.

Lemma video_code_source w rs b b' c :
  video_scan w (timestamps w) [] b = (inr rs, b') ->
  c ∈ collect_codes rs -> video_source w c.
Proof.
  intros Hscan Hc. apply collect_codes_elem in Hc as (o & Ho & Hc).
  apply video_scan_result in Hscan as (new & -> & Hnew). cbn [app] in Ho.
  destruct (Hnew o Ho) as (seconds & shot & img & text & Hin & Hshot & Himg & Htext & Hcodes).
  exists seconds, o.1.1, shot, img, text. by rewrite <- Hcodes.
Qed.

Lemma run_code_source w b codes c :
  (extract_attendance_codes w b).1 = inr codes -> c ∈ codes ->
  thumbnail_source w c \/ video_source w c.
Proof.
  assert (Hphase : forall fc, fc = thumbnail_found_codes w ->
    (try_finally (video_phase w fc) (log Quit) b).1 = inr codes -> c ∈ codes ->
    thumbnail_source w c \/ video_source w c).
  { intros fc Hfc. unfold try_finally, log.
    destruct (video_phase w fc b) as [r b1] eqn:Hvideo. cbn. intros -> Hc.
    destruct (video_phase_codes w fc b codes) as [->|(s & rs & b' & -> & Hscan & ->)].
    - by rewrite Hvideo.
    - by apply elem_of_nil in Hc.
    - apply elem_of_elements, elem_of_union in Hc as [Hc|Hc].
      + left. by eapply thumbnail_code_source.
      + right. by eapply video_code_source. }
  destruct (thumbnail_found_codes w) as [s|] eqn:Hfc.
  - destruct (decide (s = ∅)) as [->|Hne].
    + rewrite run_without_thumbnail_codes by by right. rewrite Hfc. by apply Hphase.
    + unfold extract_attendance_codes, try_finally. rewrite Hfc.
      rewrite bool_decide_eq_true_2 by done. cbn. intros [= <-] Hc.
      left. eapply thumbnail_code_source; [done|]. by apply elem_of_elements.
  - rewrite run_without_thumbnail_codes by by left. rewrite Hfc. by apply Hphase.
Qed.

(** X16. Every code the run returns was recognized in the text of a frame, a
    thumbnail fetched with status 200 or a capture of the video at one of
    the navigation points, and has the shape of a code: at least two
    characters, capitals and white space only, a capital first and last. *)
Theorem returned_codes_were_read_from_frames (w : world) (b : browser)
    (codes : list str) (c : str) :
  (extract_attendance_codes w b).1 = inr codes -> c ∈ codes ->
  code_shaped c /\
  ((exists url timestamp content img text r,
      (url, timestamp) ∈ as_completed w (image_urls w) /\
      requests_get w url = inr (200%Z, content) /\
      Image_open w content = inr img /\
      image_to_string w img = inr text /\
      recognize_thumbnail text = inr r /\
      c ∈ codes_of r) \/
   (exists seconds time_str shot img text,
      (seconds, time_str) ∈ timestamps w /\
      screenshot_as_png w seconds = inr shot /\
      Image_open w shot = inr img /\
      image_to_string w img = inr text /\
      c ∈ recognize_video text)).
Proof.
  intros Hrun Hc. pose proof (run_code_source w b codes c Hrun Hc) as Hsource.
  split; [|exact Hsource].
  destruct Hsource as [(url & timestamp & content & img & text & r & _ & _ & _ & _ & Hr & Hin)
                      |(seconds & time_str & shot & img & text & _ & _ & _ & _ & Hin)].
  - by eapply recognize_thumbnail_shaped.
  - by eapply recognize_video_shaped.
Qed.

Lemma returned_codes_were_read_from_frames_witness :
  (extract_attendance_codes blank_thumbnail_world fresh).1 = inr [py "QRST UVWX"] /\
  code_shaped (py "QRST UVWX").
Proof.
  assert (H : (extract_attendance_codes blank_thumbnail_world fresh).1
              = inr [py "QRST UVWX"]) by (vm_compute; reflexivity).
  split; [exact H|].
  exact (proj1 (returned_codes_were_read_from_frames blank_thumbnail_world fresh
                  _ (py "QRST UVWX") H (list_elem_of_here _ _))).
Defined.

(** ** The page and the scan *)

Lemma sorted_prefix (l1 l2 : list Z) :
  l1 `prefix_of` l2 -> StronglySorted Z.le l2 -> StronglySorted Z.le l1.
Proof. intros [k ->]. apply StronglySorted_app_1_l. Qed.

(** X15. The positions the video is sought at are read off the page: they are, in
    this order, the seconds of the navigation points of the page up to the
    point where the run stops, so that the video is never sought
    backwards. *)
Theorem video_is_sought_forwards (soup : node) (w : world) (b : browser) :
  exists sought,
    seeks (events (extract_attendance_codes (open_page soup w) b).2) =
      seeks (events b) ++ sought /\
    sought `prefix_of` map fst (extract_timestamps_from_thumbnails soup) /\
    StronglySorted Z.le sought.
Proof.
  destruct (run_events (open_page soup w) b) as (evs & Hev & Hshape).
  assert (Hsorted : StronglySorted Z.le (map fst (extract_timestamps_from_thumbnails soup))).
  { eapply (StronglySorted_fmap fst by_seconds Z.le); [|apply extract_timestamps_sorted].
    by intros x y. }
  exists (seeks evs). rewrite Hev, !seeks_app. cbn. rewrite app_nil_r.
  split; [done|].
  assert (Hpre : seeks evs `prefix_of` map fst (extract_timestamps_from_thumbnails soup)).
  { destruct Hshape as [->|(scan & -> & Hpre)]; [apply prefix_nil|].
    rewrite seeks_app, seeks_player_search. cbn [app].
    rewrite <- seeks_visits. by apply seeks_prefix. }
  split; [done|]. by eapply sorted_prefix.
Qed.

(** ** The order of completion *)





(** ** The filter on capitals *)

Lemma lower_char_capital c d :
  is_upper c = true \/ c = " "%char -> is_upper d = true ->
  lower_char c = lower_char d -> c = d.
Proof.
  intros Hc Hd.
  assert (Hc' : is_upper c || Ascii.eqb c " " = true).
  { destruct Hc as [-> | ->]; [done|]. by rewrite orb_true_r. }
  clear Hc. revert Hc' Hd.
  destruct c as [[] [] [] [] [] [] [] []]; (intros Hc; vm_compute in Hc; try discriminate Hc);
    destruct d as [[] [] [] [] [] [] [] []]; (intros Hd; vm_compute in Hd; try discriminate Hd);
    intros H; vm_compute in H; first [discriminate H | reflexivity].
Qed.

Lemma lower_capitals (x y : str) :
  Forall (fun c => is_upper c = true \/ c = " "%char) x ->
  forallb is_upper y = true -> lower x = lower y -> x = y.
Proof.
  intros Hx. revert y. induction Hx as [|c x Hc Hx IH]; intros [|d y]; try done.
  cbn. intros [Hd Hy]%andb_true_iff [= Hcd Hxy].
  f_equal; [by apply lower_char_capital|by apply IH].
Qed.

Lemma occurs_in_capitals (term m : str) :
  Forall (fun c => is_upper c = true \/ c = " "%char) m ->
  forallb is_upper term = true ->
  occurs_in (lower term) (lower m) <-> occurs_in term m.
Proof.
  intros Hm Hterm. split; [|apply occurs_in_lower].
  intros (a & b & Heq). unfold lower in Heq.
  apply (fmap_app_inv lower_char) in Heq as (a' & rest & -> & Hrest & ->).
  symmetry in Hrest.
  apply (fmap_app_inv lower_char) in Hrest as (x & b' & Hx & -> & ->).
  apply Forall_app in Hm as [_ Hm]. apply Forall_app in Hm as [Hm _].
  exists a', b'. f_equal. f_equal. apply lower_capitals; [done|done|]. by symmetry.
Qed.

Lemma url_terms_capitals m :
  Forall (fun c => is_upper c = true \/ c = " "%char) m ->
  (forall url_term, url_term ∈ url_terms -> ~ occurs_in url_term (lower m)) <->
  ~ occurs_in (py "HTTP") m /\ ~ occurs_in (py "WWW") m /\
  ~ occurs_in (py "JOIN") m /\ ~ occurs_in (py "COM") m.
Proof.
  intros Hm.
  rewrite <- (occurs_in_capitals (py "HTTP") m), <- (occurs_in_capitals (py "WWW") m),
    <- (occurs_in_capitals (py "JOIN") m), <- (occurs_in_capitals (py "COM") m) by done.
  split.
  - intros H. repeat split; apply H; unfold url_terms; set_solver.
  - intros (H1 & H2 & H3 & H4) url_term Hin. unfold url_terms in Hin.
    repeat (apply elem_of_cons in Hin as [->|Hin]; [done|]). by apply elem_of_nil in Hin.
Qed.

(** X7. Of the matches of a code pattern the filter of lines 74-77 and 270-273
    drops exactly those in which HTTP, WWW, JOIN or COM occurs, as part of a
    word or as a word: a match is kept if and only if none of the four
    occurs in it. *)
Theorem matches_with_url_letters_are_dropped (pattern : regex) (text m : str) :
  pattern = thumbnail_code_pattern \/ pattern = video_code_pattern ->
  m ∈ re_findall pattern text ->
  (m ∈ filter_matches (re_findall pattern text) <->
   ~ occurs_in (py "HTTP") m /\ ~ occurs_in (py "WWW") m /\
   ~ occurs_in (py "JOIN") m /\ ~ occurs_in (py "COM") m).
Proof.
  intros Hpattern Hm.
  assert (Hchars : Forall (fun c => is_upper c = true \/ c = " "%char) m).
  { destruct Hpattern as [-> | ->];
      apply findall_sound in Hm as (_ & t & ts & Ht & Hts & _ & ->);
      by apply spaced_chars. }
  rewrite elem_of_filter_matches, url_terms_capitals by done. tauto.
Qed.

Lemma matches_with_url_letters_are_dropped_witness :
  re_findall thumbnail_code_pattern (py "attendance code WELCOME HOME or ABCD") =
    [py "WELCOME HOME"; py "ABCD"] /\
  occurs_in (py "COM") (py "WELCOME HOME") /\
  py "WELCOME HOME" ∉
    filter_matches (re_findall thumbnail_code_pattern
                      (py "attendance code WELCOME HOME or ABCD")).
Proof.
  assert (Hall : re_findall thumbnail_code_pattern (py "attendance code WELCOME HOME or ABCD") =
                 [py "WELCOME HOME"; py "ABCD"]) by (vm_compute; reflexivity).
  assert (Hin : py "WELCOME HOME" ∈
                re_findall thumbnail_code_pattern (py "attendance code WELCOME HOME or ABCD")).
  { rewrite Hall. apply list_elem_of_here. }
  assert (Hcom : occurs_in (py "COM") (py "WELCOME HOME")).
  { by exists (py "WEL"), (py "E HOME"). }
  split; [exact Hall|]. split; [exact Hcom|].
  intros Hkept.
  apply (matches_with_url_letters_are_dropped thumbnail_code_pattern _ _
           (or_introl eq_refl) Hin) in Hkept as (_ & _ & _ & Hno).
  exact (Hno Hcom).
Defined.

